(** * Free/busy availability engine of the clippy command-line client

    A shallow embedding of [src/commands/freebusy.ts]: the free-slot
    extractor [findFreeSlots], the gap inverter [findBusyFromFreeSlots],
    the availability-view decoder [parseAvailabilityView], the duration
    rendering of the free-slot report and the day-range helper
    [getDateRange], followed by the properties the specification states
    about them.

    Modelling conventions.
    - A JavaScript [Date] is the integer number of milliseconds since the
      epoch ([Z]).  Date strings coming from the remote service are taken
      as already parsed instants; the round trip through [toISOString] and
      [new Date] is the identity on instants.
    - Local wall-clock time is a fixed offset [tz] (milliseconds east of
      UTC) from UTC, so a local day has 24 hours.
    - [Array.prototype.sort] is a stable sort; as a function of its input
      it is the stable insertion sort [sortByStart] below. *)

From Stdlib Require Import ZArith List Bool String Ascii Lia.
From Stdlib Require Import Sorting.Sorted Sorting.Permutation.
From Stdlib Require Import DecimalString.
Import ListNotations.

Local Open Scope Z_scope.

(** ** Data model *)

(** [{ start: Date; end: Date }], the shape of a free slot and of the
    intermediate busy and free intervals. *)
Record Interval : Type := mkInterval { start : Z; end_ : Z }.

(** Modelled from the spec: the [FreeBusySlot] type of [lib/owa-client],
    whose declaration is not among the sources.  The slot list of the
    external interfaces is a sequence of [{start, end, status, subject?}];
    the fields are the ones [findFreeSlots] and the report read. *)
Record FreeBusySlot : Type := mkSlot {
  slot_start : Z;
  slot_end : Z;
  slot_status : string;
  slot_subject : option string
}.

(** [{ dateTime: string; timeZone: string }]. *)
Record DateTimeTZ : Type := mkDateTimeTZ { dateTime : Z; timeZone : string }.

(** [interface ScheduleItem]. *)
Record ScheduleItem : Type := mkItem {
  item_status : string;
  item_start : DateTimeTZ;
  item_end : DateTimeTZ;
  item_subject : option string
}.

(** [{ startTime: string; endTime: string; status: string }]. *)
Record BusySummary : Type := mkBusy {
  startTime : string;
  endTime : string;
  status : string
}.

(** [{ start: Date; end: Date; status: string }], a decoded run. *)
Record Block : Type := mkBlock {
  blk_start : Z;
  blk_end : Z;
  blk_status : string
}.

Definition msPerMinute : Z := 60000.
Definition msPerHour : Z := 3600000.
Definition msPerDay : Z := 86400000.

(** ** Dates in a fixed-offset local zone *)

Section LocalTime.

Variable tz : Z.

Definition startOfLocalDay (t : Z) : Z := t - (t + tz) mod msPerDay.

(** [d.setHours(h, m, s, ms)]: fields out of range roll over.  The zone
    is a fixed offset [tz] from UTC, so every local day has 24 hours; on
    the day of a daylight-saving transition the runtime's result differs
    from this one by the size of the shift. *)
Definition setHours (t h m s ms : Z) : Z :=
  startOfLocalDay t + h * msPerHour + m * msPerMinute + s * 1000 + ms.

(** [d.setDate(d.getDate() + n)]. *)
Definition addDays (t n : Z) : Z := t + n * msPerDay.

Definition digitChar (n : Z) : ascii := ascii_of_nat (48 + Z.to_nat n).

Definition twoDigits (n : Z) : string :=
  String (digitChar (n / 10)) (String (digitChar (n mod 10)) EmptyString).

(** [formatTime]: [toLocaleTimeString('en-US', { hour: '2-digit',
    minute: '2-digit', hour12: false })], that is [HH:MM] on the
    24-hour clock.  Midnight is rendered with hour [00]; runtimes whose
    [en-US] locale data selects the 1-24 hour cycle for [hour12: false]
    print [24] there. *)
Definition formatTime (t : Z) : string :=
  let local := (t + tz) mod msPerDay in
  (twoDigits (local / msPerHour) ++ ":" ++
   twoDigits ((local mod msPerHour) / msPerMinute))%string.

End LocalTime.

(** ** Sorting by start *)

Fixpoint insertByStart (x : Interval) (l : list Interval) : list Interval :=
  match l with
  | [] => [x]
  | y :: r =>
      if start x <=? start y then x :: y :: r else y :: insertByStart x r
  end.

(** [.sort((a, b) => a.start.getTime() - b.start.getTime())]. *)
Definition sortByStart (l : list Interval) : list Interval :=
  fold_right insertByStart [] l.

(** ** findFreeSlots *)

(** One iteration of [for (const busy of busySlots)]; the state is the
    array [freeSlots] and the cursor [current]. *)
Definition findFreeSlots_step (workingStart workingEnd : Z)
    (st : list Interval * Z) (busy : Interval) : list Interval * Z :=
  let '(freeSlots, current) := st in
  if (end_ busy <=? workingStart) || (start busy >=? workingEnd) then st
  else
    let busyStart :=
      if start busy <? workingStart then workingStart else start busy in
    let busyEnd :=
      if end_ busy >? workingEnd then workingEnd else end_ busy in
    let freeSlots' :=
      if busyStart >? current
      then freeSlots ++ [mkInterval current busyStart]
      else freeSlots in
    (freeSlots', if busyEnd >? current then busyEnd else current).

Definition isFree (s : string) : bool := String.eqb s "Free".

Definition busyIntervals (slots : list FreeBusySlot) : list Interval :=
  map (fun s => mkInterval (slot_start s) (slot_end s))
      (filter (fun s => negb (isFree (slot_status s))) slots).

(** [findFreeSlots(slots, dayStart, dayEnd, workStart, workEnd)]; the
    command always passes both hours, and [dayEnd] is not read. *)
Definition findFreeSlots (tz : Z) (slots : list FreeBusySlot)
    (dayStart dayEnd : Z) (workStart workEnd : Z) : list Interval :=
  let workingStart := setHours tz dayStart workStart 0 0 0 in
  let workingEnd := setHours tz dayStart workEnd 0 0 0 in
  let busySlots := sortByStart (busyIntervals slots) in
  let '(freeSlots, current) :=
    fold_left (findFreeSlots_step workingStart workingEnd)
              busySlots ([], workingStart) in
  if current <? workingEnd
  then freeSlots ++ [mkInterval current workingEnd]
  else freeSlots.

(** ** findBusyFromFreeSlots *)

Definition findBusy_step (tz : Z) (workStart workEnd : Z)
    (st : list BusySummary * Z) (free : Interval) : list BusySummary * Z :=
  let '(busySlots, current) := st in
  let freeStart := if start free <? workStart then workStart else start free in
  let freeEnd := if end_ free >? workEnd then workEnd else end_ free in
  let busySlots' :=
    if freeStart >? current
    then busySlots ++ [mkBusy (formatTime tz current)
                              (formatTime tz freeStart) "Busy"]
    else busySlots in
  (busySlots', if freeEnd >? current then freeEnd else current).

Definition freeIntervals (workStart workEnd : Z)
    (freeItems : list ScheduleItem) : list Interval :=
  filter (fun slot => (end_ slot >? workStart) && (start slot <? workEnd))
    (map (fun item => mkInterval (dateTime (item_start item))
                                 (dateTime (item_end item)))
         (filter (fun item => isFree (item_status item)) freeItems)).

Definition findBusyFromFreeSlots (tz : Z) (freeItems : list ScheduleItem)
    (dayStart : Z) (workStartHour workEndHour : Z) : list BusySummary :=
  let workStart := setHours tz dayStart workStartHour 0 0 0 in
  let workEnd := setHours tz dayStart workEndHour 0 0 0 in
  let freeSlots := sortByStart (freeIntervals workStart workEnd freeItems) in
  let '(busySlots, current) :=
    fold_left (findBusy_step tz workStart workEnd)
              freeSlots ([], workStart) in
  if current <? workEnd
  then busySlots ++ [mkBusy (formatTime tz current)
                            (formatTime tz workEnd) "Busy"]
  else busySlots.

(** ** parseAvailabilityView *)

(** [statusMap[c] || 'Unknown']. *)
Definition statusMap (c : ascii) : string :=
  (if Ascii.eqb c "0" then "Free"
   else if Ascii.eqb c "1" then "Tentative"
   else if Ascii.eqb c "2" then "Busy"
   else if Ascii.eqb c "3" then "Out of Office"
   else if Ascii.eqb c "4" then "Working Elsewhere"
   else "Unknown")%string.

(** One iteration of the decoder loop at index [i]; the state is the
    array [blocks] and the open run [current] ([None] for [null]).  The
    source extends the open run by writing its [end] field in place; a
    run is pushed only when [current] is replaced, so no pushed block is
    written again and blocks are plain values here. *)
Definition parse_step (startDate intervalMinutes : Z)
    (st : list Block * option Block) (i : Z) (c : ascii)
    : list Block * option Block :=
  let '(blocks, current) := st in
  let time := startDate + i * intervalMinutes * 60000 in
  let status := statusMap c in
  if isFree status then
    match current with
    | Some cur => (blocks ++ [cur], None)
    | None => (blocks, None)
    end
  else
    match current with
    | Some cur =>
        if String.eqb (blk_status cur) status
        then (blocks,
              Some (mkBlock (blk_start cur)
                            (time + intervalMinutes * 60000)
                            (blk_status cur)))
        else (blocks ++ [cur],
              Some (mkBlock time (time + intervalMinutes * 60000) status))
    | None =>
        (blocks, Some (mkBlock time (time + intervalMinutes * 60000) status))
    end.

Fixpoint parse_loop (startDate intervalMinutes : Z) (view : list ascii)
    (i : Z) (st : list Block * option Block) : list Block * option Block :=
  match view with
  | [] => st
  | c :: rest =>
      parse_loop startDate intervalMinutes rest (i + 1)
                 (parse_step startDate intervalMinutes st i c)
  end.

Definition parseAvailabilityView (view : string) (startDate : Z)
    (intervalMinutes : Z) : list Block :=
  let '(blocks, current) :=
    parse_loop startDate intervalMinutes (list_ascii_of_string view) 0
               ([], None) in
  match current with
  | Some cur => blocks ++ [cur]
  | None => blocks
  end.

(** ** Duration rendering of the free-slot report *)

Definition showZ (n : Z) : string := NilZero.string_of_int (Z.to_int n).

(** [Math.round(x / 60000)] on an integer [x]: the nearest integer, a
    half rounded up. *)
Definition roundMinutes (x : Z) : Z := (x + 30000) / 60000.

Definition durationMinutes (slot : Interval) : Z :=
  roundMinutes (end_ slot - start slot).

(** The template literal of [durationStr]; [%] is the truncating
    remainder. *)
Definition durationStr (slot : Interval) : string :=
  let duration := durationMinutes slot in
  let hours := duration / 60 in
  let mins := Z.rem duration 60 in
  if hours >? 0
  then (showZ hours ++ "h" ++
        (if mins >? 0 then " " ++ showZ mins ++ "m" else EmptyString))%string
  else (showZ mins ++ "m")%string.

(** ** getDateRange *)

Definition lowerChar (c : ascii) : ascii :=
  let n := nat_of_ascii c in
  if (Nat.leb 65 n && Nat.leb n 90)%bool then ascii_of_nat (n + 32) else c.

Fixpoint toLowerCase (s : string) : string :=
  match s with
  | EmptyString => EmptyString
  | String c r => String (lowerChar c) (toLowerCase r)
  end.

Section DateRange.

Variable tz : Z.
(** [new Date()], the current instant. *)
Variable now : Z.
(** [new Date(day)]: [None] when the result is an invalid date. *)
Variable parseDate : string -> option Z.

Definition targetDate (day : string) : Z :=
  let d := toLowerCase day in
  if String.eqb d "today" then now
  else if String.eqb d "tomorrow" then addDays now 1
  else match parseDate day with
       | Some t => t
       | None => now
       end.

Definition getDateRange (day : string) : Interval :=
  let t := targetDate day in
  mkInterval (setHours tz t 0 0 0 0) (setHours tz t 23 59 59 999).

End DateRange.

(** ** Specification vocabulary *)

(** Membership of an instant in the half-open interval [[start, end)]. *)
Definition within (i : Interval) (t : Z) : Prop := start i <= t < end_ i.

(** The instants covered by a list of intervals. *)
Definition covers (l : list Interval) (t : Z) : Prop :=
  exists i, In i l /\ within i t.

(** [overlaps(a, b)] of the interval utilities. *)
Definition overlaps (a b : Interval) : Prop :=
  start a < end_ b /\ start b < end_ a.

(** Every interval is non-empty, starts strictly after [b], and strictly
    after the end of the one before it. *)
Fixpoint separatedFrom (b : Z) (l : list Interval) : Prop :=
  match l with
  | [] => True
  | i :: r => b < start i /\ start i < end_ i /\ separatedFrom (end_ i) r
  end.

(** A list of maximal intervals: non-empty, start-ascending, and with a
    real gap between any two neighbours (so that no two could be merged
    and none overlap). *)
Definition canonical (l : list Interval) : Prop :=
  match l with
  | [] => True
  | i :: r => start i < end_ i /\ separatedFrom (end_ i) r
  end.

(** Every interval ends no earlier than it starts and starts no earlier
    than [b] and than the end of the one before it. *)
Fixpoint orderedFrom (b : Z) (l : list Interval) : Prop :=
  match l with
  | [] => True
  | i :: r => b <= start i /\ start i <= end_ i /\ orderedFrom (end_ i) r
  end.

Definition ascending (l : list Interval) : Prop :=
  StronglySorted (fun a b => start a <= start b) l.

Definition nonOverlapping (l : list Interval) : Prop :=
  ForallOrdPairs (fun a b => ~ overlaps a b) l.

(** An instant is busy when some slot of status other than [Free]
    contains it. *)
Definition busyAt (slots : list FreeBusySlot) (t : Z) : Prop :=
  exists s, In s slots /\ isFree (slot_status s) = false /\
            slot_start s <= t < slot_end s.

(** An instant is free when some schedule item of status [Free] contains
    it. *)
Definition freeAt (items : list ScheduleItem) (t : Z) : Prop :=
  exists it, In it items /\ isFree (item_status it) = true /\
             dateTime (item_start it) <= t < dateTime (item_end it).

(** The [start < end] invariant of the data model, on the slots and items
    the two sweeps look at. *)
Definition wellFormedBusy (slots : list FreeBusySlot) : Prop :=
  forall s, In s slots -> isFree (slot_status s) = false ->
            slot_start s < slot_end s.

Definition wellFormedFree (items : list ScheduleItem) : Prop :=
  forall it, In it items -> isFree (item_status it) = true ->
             dateTime (item_start it) < dateTime (item_end it).

(** The work window of a day. *)
Definition windowStart (tz dayStart workStart : Z) : Z :=
  setHours tz dayStart workStart 0 0 0.

Definition windowEnd (tz dayStart workEnd : Z) : Z :=
  setHours tz dayStart workEnd 0 0 0.

(** Clock time [hh:mm] of the day that starts at [day]. *)
Definition clock (day hh mm : Z) : Z := day + hh * msPerHour + mm * msPerMinute.

(** 2024-01-01T00:00 UTC. *)
Definition jan1 : Z := 1704067200000.

(** ** The sweep, as the list of gaps it emits *)

(** Clamping as both loops do it in place. *)
Definition clampTo (ws we : Z) (i : Interval) : Interval :=
  mkInterval (if start i <? ws then ws else start i)
             (if end_ i >? we then we else end_ i).

(** The test under which [findFreeSlots] does not skip a busy slot. *)
Definition meetsWindow (ws we : Z) (i : Interval) : bool :=
  negb ((end_ i <=? ws) || (start i >=? we)).

(** What the sweep needs of the list it is run on: every interval meets
    the window. *)
Definition allMeet (ws we : Z) (l : list Interval) : Prop :=
  forall i, In i l -> meetsWindow ws we i = true.

(** The gaps a cursor sweep leaves in [[cur, we)]. *)
Fixpoint gaps (we : Z) (l : list Interval) (cur : Z) : list Interval :=
  match l with
  | [] => if cur <? we then [mkInterval cur we] else []
  | i :: r =>
      (if start i >? cur then [mkInterval cur (start i)] else [])
      ++ gaps we r (if end_ i >? cur then end_ i else cur)
  end.

Definition renderGap (tz : Z) (g : Interval) : BusySummary :=
  mkBusy (formatTime tz (start g)) (formatTime tz (end_ g)) "Busy".

(** The busy gaps of [findBusyFromFreeSlots] before they are rendered as
    clock times. *)
Definition findBusyGaps (tz : Z) (freeItems : list ScheduleItem)
    (dayStart : Z) (workStartHour workEndHour : Z) : list Interval :=
  let workStart := setHours tz dayStart workStartHour 0 0 0 in
  let workEnd := setHours tz dayStart workEndHour 0 0 0 in
  gaps workEnd
       (map (clampTo workStart workEnd)
            (sortByStart (freeIntervals workStart workEnd freeItems)))
       workStart.

(** ** The gap inverter as the specification words it *)

(** [clamp(interval, bound)]: the intersection, or nothing when it is
    empty. *)
Definition clamp (ws we : Z) (i : Interval) : option Interval :=
  let s := Z.max (start i) ws in
  let e := Z.min (end_ i) we in
  if s >=? e then None else Some (mkInterval s e).

Fixpoint clampAll (ws we : Z) (l : list Interval) : list Interval :=
  match l with
  | [] => []
  | i :: r =>
      match clamp ws we i with
      | Some c => c :: clampAll ws we r
      | None => clampAll ws we r
      end
  end.

(** Step 3: the cursor sweep over already clamped intervals. *)
Fixpoint specSweep (tz : Z) (l : list Interval) (cursor : Z)
    : list BusySummary * Z :=
  match l with
  | [] => ([], cursor)
  | i :: r =>
      let emitted :=
        if cursor <? start i
        then [mkBusy (formatTime tz cursor) (formatTime tz (start i)) "Busy"]
        else [] in
      let '(rest, final) := specSweep tz r (Z.max cursor (end_ i)) in
      (emitted ++ rest, final)
  end.

(** Steps 1 to 4 of the gap inverter. *)
Definition gapInverter (tz : Z) (freeIvs : list Interval) (ws we : Z)
    : list BusySummary :=
  let clamped := clampAll ws we freeIvs in
  let sorted := sortByStart clamped in
  let '(busy, cursor) := specSweep tz sorted ws in
  if cursor <? we
  then busy ++ [mkBusy (formatTime tz cursor) (formatTime tz we) "Busy"]
  else busy.

(** Steps 3 and 4 alone, on a list that is already clamped and sorted:
    the cursor sweep and the trailing gap. *)
Definition sweepGaps (tz : Z) (sorted : list Interval) (ws we : Z)
    : list BusySummary :=
  let '(busy, cursor) := specSweep tz sorted ws in
  if cursor <? we
  then busy ++ [mkBusy (formatTime tz cursor) (formatTime tz we) "Busy"]
  else busy.

Definition itemInterval (it : ScheduleItem) : Interval :=
  mkInterval (dateTime (item_start it)) (dateTime (item_end it)).

(** ** The decoder as run-length coalescing *)

(** Maximal runs of equal adjacent statuses, with their lengths. *)
Fixpoint runs (l : list string) : list (string * Z) :=
  match l with
  | [] => []
  | s :: r =>
      match runs r with
      | (s', n) :: t =>
          if String.eqb s s' then (s, n + 1) :: t else (s, 1) :: (s', n) :: t
      | [] => [(s, 1)]
      end
  end.

Definition bucketTime (startDate intervalMinutes i : Z) : Z :=
  startDate + i * intervalMinutes * 60000.

(** Lay the runs out from bucket [i] on: a run of [n] buckets of a
    status other than [Free] is one block from the start of its first
    bucket to the end of its last; a [Free] run is dropped. *)
Fixpoint place (startDate intervalMinutes : Z) (i : Z)
    (rs : list (string * Z)) : list Block :=
  match rs with
  | [] => []
  | (s, n) :: t =>
      (if isFree s then []
       else [mkBlock (bucketTime startDate intervalMinutes i)
                     (bucketTime startDate intervalMinutes (i + n)) s])
      ++ place startDate intervalMinutes (i + n) t
  end.

(** The same when a run [cur] is still open at bucket [i]: it absorbs a
    first run of its own status. *)
Definition placeOpen (startDate intervalMinutes : Z) (cur : Block) (i : Z)
    (rs : list (string * Z)) : list Block :=
  match rs with
  | (s, n) :: t =>
      if String.eqb (blk_status cur) s
      then mkBlock (blk_start cur)
                   (bucketTime startDate intervalMinutes (i + n))
                   (blk_status cur)
           :: place startDate intervalMinutes (i + n) t
      else cur :: place startDate intervalMinutes i rs
  | [] => [cur]
  end.

(** [if (current) blocks.push(current)] at the end of the decoder. *)
Definition flush (st : list Block * option Block) : list Block :=
  let '(blocks, current) := st in
  match current with
  | Some cur => blocks ++ [cur]
  | None => blocks
  end.

Definition blockInterval (b : Block) : Interval :=
  mkInterval (blk_start b) (blk_end b).

(** A free slot handed on as a [Free] schedule item. *)
Definition asFreeItem (i : Interval) : ScheduleItem :=
  mkItem "Free" (mkDateTimeTZ (start i) "UTC") (mkDateTimeTZ (end_ i) "UTC")
         None.

(** ** Vocabulary for the further properties *)

(** The summed length of a list of intervals. *)
Fixpoint totalLength (l : list Interval) : Z :=
  match l with
  | [] => 0
  | i :: r => (end_ i - start i) + totalLength r
  end.

(** ** The day of the delete-event command *)

Section DeleteEventDay.

Variable tz : Z.
(** [new Date()], the current instant. *)
Variable now : Z.
(** [new Date(day)]: [None] when the result is an invalid date. *)
Variable parseDate : string -> option Z.

(** [parseDay]: [today], [tomorrow], [yesterday], a date, or else now. *)
Definition parseDay (day : string) : Z :=
  let d := toLowerCase day in
  if String.eqb d "today" then now
  else if String.eqb d "tomorrow" then addDays now 1
  else if String.eqb d "yesterday" then addDays now (-1)
  else match parseDate day with
       | Some parsed => parsed
       | None => now
       end.

(** [startOfDay] and [endOfDay] of the command's action. *)
Definition eventDayRange (day : string) : Interval :=
  let baseDate := parseDay day in
  mkInterval (setHours tz baseDate 0 0 0 0) (setHours tz baseDate 23 59 59 999).

End DeleteEventDay.

(** ** Status icons and bucket counts *)

(** [getStatusIcon]. *)
Definition getStatusIcon (status : string) : string :=
  (if String.eqb status "Free" then "🟢"
   else if String.eqb status "Tentative" then "🟡"
   else if String.eqb status "Busy" then "🔴"
   else "⚪")%string.

(** The number of buckets of a view whose code is not [0]. *)
Definition occupiedBuckets (view : string) : Z :=
  Z.of_nat
    (List.length
       (filter (fun c => negb (Ascii.eqb c "0")) (list_ascii_of_string view))).

(** The number of buckets in the runs of a status other than [Free]. *)
Fixpoint occupiedInRuns (rs : list (string * Z)) : Z :=
  match rs with
  | [] => 0
  | (s, n) :: t => (if isFree s then 0 else n) + occupiedInRuns t
  end.

(** The status sequence a list of runs stands for. *)
Definition expandRuns (rs : list (string * Z)) : list string :=
  flat_map (fun r => repeat (fst r) (Z.to_nat (snd r))) rs.

(** ** The delete-event command: which event is deleted *)

(** Modelled from the spec: the calendar event type of [lib/owa-client],
    whose declaration is not among the sources; the fields are the ones
    the delete-event command reads.  [Subject] may be absent. *)
Record CalendarEvent : Type := mkEvent {
  Id : string;
  Subject : option string;
  StartDateTime : Z;
  EndDateTime : Z;
  IsOrganizer : bool;
  IsCancelled : bool
}.

(** What the action does once the events of the day are fetched: print
    the numbered list, reject the number, or delete one event. *)
Inductive DeletePlan : Type :=
  | ListEvents (events : list (Z * CalendarEvent))
  | InvalidEventNumber (count : nat)
  | DeleteTarget (target : CalendarEvent).

(** [events.map((e, i) => ({ index: i + 1, ... }))]. *)
Fixpoint numberFrom (i : Z) (events : list CalendarEvent)
    : list (Z * CalendarEvent) :=
  match events with
  | [] => []
  | e :: r => (i, e) :: numberFrom (i + 1) r
  end.

Section DeleteEvent.

(** [String.prototype.toLowerCase] and [String.prototype.includes]. *)
Variable lowerCase : string -> string.
Variable includes : string -> string -> bool.
(** [parseInt]: [None] for [NaN]. *)
Variable parseInt : string -> option Z.

(** A string option as a condition: absent and empty are both false. *)
Definition truthy (o : option string) : option string :=
  match o with
  | Some s => if String.eqb s EmptyString then None else Some s
  | None => None
  end.

(** [e.Subject?.toLowerCase().includes(searchLower)]. *)
Definition subjectMatches (searchLower : string) (e : CalendarEvent) : bool :=
  match Subject e with
  | Some subject => includes (lowerCase subject) searchLower
  | None => false
  end.

(** The events offered for deletion. *)
Definition deletableEvents (data : list CalendarEvent)
    (search : option string) : list CalendarEvent :=
  let events := filter (fun e => IsOrganizer e && negb (IsCancelled e)) data in
  match truthy search with
  | Some s => filter (subjectMatches (lowerCase s)) events
  | None => events
  end.

Definition deleteEventPlan (data : list CalendarEvent)
    (search eventIndex : option string) : DeletePlan :=
  let events := deletableEvents data search in
  match truthy eventIndex with
  | None => ListEvents (numberFrom 1 events)
  | Some text =>
      match parseInt text with
      | None => InvalidEventNumber (List.length events)
      | Some n =>
          let idx := n - 1 in
          if (idx <? 0) || (idx >=? Z.of_nat (List.length events))
          then InvalidEventNumber (List.length events)
          else match nth_error events (Z.to_nat idx) with
               | Some targetEvent => DeleteTarget targetEvent
               | None => InvalidEventNumber (List.length events)
               end
      end
  end.

End DeleteEvent.

(** ** Markdown to HTML: escaping *)

(** [s.replace(/c/g, rep)] for a single character [c]. *)
Fixpoint replaceChar (c : ascii) (rep : string) (s : string) : string :=
  match s with
  | EmptyString => EmptyString
  | String x r =>
      if Ascii.eqb x c
      then (rep ++ replaceChar c rep r)%string
      else String x (replaceChar c rep r)
  end.

(** The first step of [markdownToHtml]: escape the HTML entities. *)
Definition escapeHtml (text : string) : string :=
  replaceChar ">" "&gt;" (replaceChar "<" "&lt;" (replaceChar "&" "&amp;" text)).

(** The text that stands for one character after escaping. *)
Definition escapedChar (x : ascii) : string :=
  (if Ascii.eqb x "&" then "&amp;"
   else if Ascii.eqb x "<" then "&lt;"
   else if Ascii.eqb x ">" then "&gt;"
   else String x EmptyString)%string.

(** ** Markdown to HTML: lists *)

(** What a line is for the list pass, with the captured item text. *)
Inductive LineKind : Type :=
  | Bullet (item : string)
  | Numbered (item : string)
  | Plain (line : string).

(** A stretch of the output of the list pass. *)
Inductive Segment : Type :=
  | UList (items : list string)
  | OList (items : list string)
  | Text (line : string).

Definition li (item : string) : string := ("<li>" ++ item ++ "</li>")%string.

Definition renderSegment (seg : Segment) : list string :=
  match seg with
  | UList items => ["<ul>"%string] ++ map li items ++ ["</ul>"%string]
  | OList items => ["<ol>"%string] ++ map li items ++ ["</ol>"%string]
  | Text line => [line]
  end.

(** Consecutive bullet lines form one unordered list, consecutive
    numbered lines one ordered list, every other line stands alone. *)
Fixpoint segments (kinds : list LineKind) : list Segment :=
  match kinds with
  | [] => []
  | Bullet item :: r =>
      match segments r with
      | UList items :: t => UList (item :: items) :: t
      | segs => UList [item] :: segs
      end
  | Numbered item :: r =>
      match segments r with
      | OList items :: t => OList (item :: items) :: t
      | segs => OList [item] :: segs
      end
  | Plain line :: r => Text line :: segments r
  end.

(** The rest of the output when an unordered list is open. *)
Definition afterOpenUl (segs : list Segment) : list string :=
  match segs with
  | UList items :: t =>
      map li items ++ ["</ul>"%string] ++ flat_map renderSegment t
  | _ => ["</ul>"%string] ++ flat_map renderSegment segs
  end.

(** The rest of the output when an ordered list is open. *)
Definition afterOpenOl (segs : list Segment) : list string :=
  match segs with
  | OList items :: t =>
      map li items ++ ["</ol>"%string] ++ flat_map renderSegment t
  | _ => ["</ol>"%string] ++ flat_map renderSegment segs
  end.

(** The lines a list of segments came from. *)
Definition segmentKinds (seg : Segment) : list LineKind :=
  match seg with
  | UList items => map Bullet items
  | OList items => map Numbered items
  | Text line => [Plain line]
  end.

(** Two neighbouring segments are not two lists of the same kind. *)
Definition notSameList (a b : Segment) : Prop :=
  match a, b with
  | UList _, UList _ => False
  | OList _, OList _ => False
  | _, _ => True
  end.

Definition nonEmptyList (seg : Segment) : Prop :=
  match seg with
  | UList items => items <> []
  | OList items => items <> []
  | Text _ => True
  end.

Section MarkdownLists.

(** [line.match(/^[\s]*[-*]\s+(.+)$/)] and
    [line.match(/^[\s]*\d+\.\s+(.+)$/)]: the captured item text, or
    [None] when the line does not match. *)
Variable unorderedMatch : string -> option string.
Variable orderedMatch : string -> option string.

(** One iteration of the loop over the lines; the state is the array
    [result] and the flags [inUnorderedList] and [inOrderedList]. *)
Definition listStep (st : list string * bool * bool) (line : string)
    : list string * bool * bool :=
  let '(result, inUnorderedList, inOrderedList) := st in
  match unorderedMatch line with
  | Some item =>
      let result1 :=
        if inOrderedList then result ++ ["</ol>"%string] else result in
      let result2 :=
        if inUnorderedList then result1 else result1 ++ ["<ul>"%string] in
      (result2 ++ [li item], true, false)
  | None =>
      match orderedMatch line with
      | Some item =>
          let result1 :=
            if inUnorderedList then result ++ ["</ul>"%string] else result in
          let result2 :=
            if inOrderedList then result1 else result1 ++ ["<ol>"%string] in
          (result2 ++ [li item], false, true)
      | None =>
          let result1 :=
            if inUnorderedList then result ++ ["</ul>"%string] else result in
          let result2 :=
            if inOrderedList then result1 ++ ["</ol>"%string] else result1 in
          (result2 ++ [line], false, false)
      end
  end.

(** [// Close any remaining open lists]. *)
Definition closeLists (st : list string * bool * bool) : list string :=
  let '(result, inUnorderedList, inOrderedList) := st in
  let result1 :=
    if inUnorderedList then result ++ ["</ul>"%string] else result in
  if inOrderedList then result1 ++ ["</ol>"%string] else result1.

(** The list pass of [markdownToHtml] over the lines of the text. *)
Definition processLists (lines : list string) : list string :=
  closeLists (fold_left listStep lines ([], false, false)).

Definition classify (line : string) : LineKind :=
  match unorderedMatch line with
  | Some item => Bullet item
  | None =>
      match orderedMatch line with
      | Some item => Numbered item
      | None => Plain line
      end
  end.

End MarkdownLists.

(** ** The send command: recipient lists *)

(** The text of an option as its UTF-16 code units, so that the
    characters [trim] removes are the ones the language defines. *)
Definition CodeUnits : Type := list N.

Definition comma : N := 44%N.
Definition space : N := 32%N.

(** White space and line terminators, the characters
    [String.prototype.trim] removes. *)
Definition isWhiteSpace (c : N) : bool :=
  ((c =? 9) || (c =? 10) || (c =? 11) || (c =? 12) || (c =? 13) ||
   (c =? 32) || (c =? 160) || (c =? 5760) ||
   ((8192 <=? c) && (c <=? 8202)) ||
   (c =? 8232) || (c =? 8233) || (c =? 8239) || (c =? 8287) ||
   (c =? 12288) || (c =? 65279))%N.

(** [s.split(',')]: the pieces between the commas, at least one. *)
Fixpoint splitComma (s : CodeUnits) : list CodeUnits :=
  match s with
  | [] => [[]]
  | c :: r =>
      if (c =? comma)%N then [] :: splitComma r
      else match splitComma r with
           | piece :: rest => (c :: piece) :: rest
           | [] => [[c]]
           end
  end.

Fixpoint trimStart (s : CodeUnits) : CodeUnits :=
  match s with
  | [] => []
  | c :: r => if isWhiteSpace c then trimStart r else s
  end.

Fixpoint trimEnd (s : CodeUnits) : CodeUnits :=
  match s with
  | [] => []
  | c :: r =>
      match trimEnd r with
      | [] => if isWhiteSpace c then [] else [c]
      | t => c :: t
      end
  end.

(** [e.trim()]. *)
Definition trim (s : CodeUnits) : CodeUnits := trimEnd (trimStart s).

Definition nonEmpty (s : CodeUnits) : bool :=
  match s with
  | [] => false
  | _ :: _ => true
  end.

(** [text.split(',').map(e => e.trim()).filter(Boolean)]. *)
Definition parseRecipients (text : CodeUnits) : list CodeUnits :=
  filter nonEmpty (map trim (splitComma text)).

(** [list.join(', ')]. *)
Fixpoint joinCommaSpace (l : list CodeUnits) : CodeUnits :=
  match l with
  | [] => []
  | [a] => a
  | a :: r => a ++ comma :: space :: joinCommaSpace r
  end.

(** A text that does not end in white space. *)
Definition endsClean (s : CodeUnits) : Prop :=
  forall pre c, s = pre ++ [c] -> isWhiteSpace c = false.

(** A text that does not start with white space. *)
Definition startsClean (s : CodeUnits) : Prop :=
  forall c r, s = c :: r -> isWhiteSpace c = false.

(** An address as [parseRecipients] gives it. *)
Definition cleanRecipient (s : CodeUnits) : Prop :=
  s <> [] /\ ~ In comma s /\ startsClean s /\ endsClean s.

(** ** The report for another mailbox *)

(** Modelled from the spec: the schedule type of [lib/owa-client], whose
    declaration is not among the sources.  A schedule answers with a list
    of schedule items or with a compressed availability string; the
    fields are the ones the report reads, each of which may be absent. *)
Record ScheduleInfo : Type := mkSchedule {
  scheduleId : string;
  scheduleItems : option (list ScheduleItem);
  availabilityView : option string
}.

Definition busyLine (item : BusySummary) : string :=
  ("    " ++ getStatusIcon (status item) ++ " " ++ startTime item ++ " - "
   ++ endTime item ++ ": " ++ status item)%string.

Definition blockLine (tz : Z) (block : Block) : string :=
  ("    " ++ getStatusIcon (blk_status block) ++ " "
   ++ formatTime tz (blk_start block) ++ " - "
   ++ formatTime tz (blk_end block) ++ ": " ++ blk_status block)%string.

Definition freeAllDayLine : string := "    🟢 Free all day".
Definition freeWorkingHoursLine : string := "    🟢 Free during working hours".

(** The branches [else if (schedule.availabilityView)] and [else] of the
    report: the lines for a schedule without schedule items. *)
Definition viewLines (tz : Z) (view : option string) (dayStart : Z)
    : list string :=
  match truthy view with
  | Some code =>
      let busyBlocks := parseAvailabilityView code dayStart 30 in
      match busyBlocks with
      | [] => [freeAllDayLine]
      | _ => map (blockLine tz) busyBlocks
      end
  | None => [freeAllDayLine]
  end.

(** The lines the free/busy command prints under the name of one
    schedule. *)
Definition scheduleLines (tz : Z) (schedule : ScheduleInfo)
    (dayStart workStart workEnd : Z) : list string :=
  match scheduleItems schedule with
  | Some (first :: others) =>
      let busySlots :=
        findBusyFromFreeSlots tz (first :: others) dayStart workStart workEnd in
      match busySlots with
      | [] => [freeWorkingHoursLine]
      | _ => map busyLine busySlots
      end
  | _ => viewLines tz (availabilityView schedule) dayStart
  end.

(** * Properties *)

(** ** Sorting *)

Lemma insertByStart_In (x y : Interval) (l : list Interval) :
  In y (insertByStart x l) <-> x = y \/ In y l.
Proof.
  induction l as [|z r IH]; simpl.
  - tauto.
  - destruct (start x <=? start z); simpl; [tauto|].
    rewrite IH. tauto.
Qed.

Lemma sortByStart_In (y : Interval) (l : list Interval) :
  In y (sortByStart l) <-> In y l.
Proof.
  induction l as [|x r IH]; simpl; [tauto|].
  rewrite insertByStart_In, IH. tauto.
Qed.

Lemma insertByStart_ascending (x : Interval) (l : list Interval) :
  ascending l -> ascending (insertByStart x l).
Proof.
  unfold ascending.
  induction l as [|z r IH]; intros Hs; simpl.
  - constructor; [constructor | constructor].
  - apply StronglySorted_inv in Hs as [Hr Hz].
    destruct (start x <=? start z) eqn:E.
    + apply Z.leb_le in E. constructor.
      * constructor; assumption.
      * constructor; [exact E|].
        rewrite Forall_forall in *. intros b Hb.
        specialize (Hz b Hb). lia.
    + apply Z.leb_gt in E. constructor.
      * apply IH; exact Hr.
      * rewrite Forall_forall in *. intros b Hb.
        apply insertByStart_In in Hb as [<-|Hb]; [lia | auto].
Qed.

Lemma sortByStart_ascending (l : list Interval) : ascending (sortByStart l).
Proof.
  induction l as [|x r IH]; simpl.
  - constructor.
  - apply insertByStart_ascending; exact IH.
Qed.

Lemma ascending_filter (p : Interval -> bool) (l : list Interval) :
  ascending l -> ascending (filter p l).
Proof.
  unfold ascending.
  induction l as [|x r IH]; intros Hs; simpl; [constructor|].
  apply StronglySorted_inv in Hs as [Hr Hx].
  destruct (p x); [|auto].
  constructor; [auto|].
  rewrite Forall_forall in *. intros b Hb.
  apply filter_In in Hb as [Hb _]. auto.
Qed.

Lemma ascending_clampTo (ws we : Z) (l : list Interval) :
  ascending l -> ascending (map (clampTo ws we) l).
Proof.
  unfold ascending.
  induction l as [|x r IH]; intros Hs; simpl; [constructor|].
  apply StronglySorted_inv in Hs as [Hr Hx].
  constructor; [auto|].
  rewrite Forall_forall in *. intros b Hb.
  apply in_map_iff in Hb as [b0 [<- Hb0]].
  specialize (Hx b0 Hb0). simpl.
  destruct (start x <? ws) eqn:E1, (start b0 <? ws) eqn:E2;
    rewrite ?Z.ltb_lt, ?Z.ltb_ge in *; lia.
Qed.

(** ** Coverage *)

Lemma covers_nil (t : Z) : ~ covers [] t.
Proof. intros [i [[] _]]. Qed.

Lemma covers_cons (i : Interval) (l : list Interval) (t : Z) :
  covers (i :: l) t <-> within i t \/ covers l t.
Proof.
  unfold covers. split.
  - intros [j [[<-|Hj] Hw]]; [left; exact Hw | right; eauto].
  - intros [Hw | [j [Hj Hw]]]; [exists i | exists j]; simpl; auto.
Qed.

Lemma covers_app (l1 l2 : list Interval) (t : Z) :
  covers (l1 ++ l2) t <-> covers l1 t \/ covers l2 t.
Proof.
  induction l1 as [|i r IH]; simpl.
  - split; [auto | intros [H|H]; [destruct (covers_nil t H) | exact H]].
  - rewrite !covers_cons, IH. tauto.
Qed.

Lemma covers_dec (l : list Interval) (t : Z) : covers l t \/ ~ covers l t.
Proof.
  induction l as [|i r IH].
  - right. apply covers_nil.
  - rewrite covers_cons. unfold within.
    destruct IH as [IH|IH]; [tauto|].
    destruct (Z_le_dec (start i) t); destruct (Z_lt_dec t (end_ i)); tauto.
Qed.

Lemma covers_sortByStart (l : list Interval) (t : Z) :
  covers (sortByStart l) t <-> covers l t.
Proof.
  unfold covers. split; intros [i [Hi Hw]]; exists i; split; auto;
    apply sortByStart_In; exact Hi.
Qed.

(** ** Canonical lists *)

Lemma separatedFrom_canonical (b : Z) (l : list Interval) :
  separatedFrom b l -> canonical l.
Proof. destruct l; simpl; tauto. Qed.

Lemma separatedFrom_covers (b : Z) (l : list Interval) (t : Z) :
  separatedFrom b l -> covers l t -> b < t.
Proof.
  revert b. induction l as [|i r IH]; intros b Hs Hc.
  - destruct (covers_nil t Hc).
  - simpl in Hs. destruct Hs as [H1 [H2 H3]].
    apply covers_cons in Hc as [Hw|Hc].
    + unfold within in Hw. lia.
    + specialize (IH _ H3 Hc). lia.
Qed.

(** Two canonical lists that cover the same instants are the same list:
    a set of instants has one list of maximal intervals. *)
Lemma canonical_unique (l1 l2 : list Interval) :
  canonical l1 -> canonical l2 ->
  (forall t, covers l1 t <-> covers l2 t) -> l1 = l2.
Proof.
  revert l2. induction l1 as [|i1 r1 IH]; intros [|i2 r2] C1 C2 Hc.
  - reflexivity.
  - exfalso. simpl in C2. apply (covers_nil (start i2)). apply Hc.
    apply covers_cons. left. unfold within. lia.
  - exfalso. simpl in C1. apply (covers_nil (start i1)). apply Hc.
    apply covers_cons. left. unfold within. lia.
  - simpl in C1, C2. destruct C1 as [V1 S1], C2 as [V2 S2].
    assert (Hlow : forall (i : Interval) r j r',
               start i < end_ i -> start j < end_ j ->
               separatedFrom (end_ j) r' ->
               (forall t, covers (i :: r) t <-> covers (j :: r') t) ->
               start j <= start i).
    { intros i r j r' Vi Vj Sj H.
      assert (Hin : covers (j :: r') (start i)).
      { apply H. apply covers_cons. left. unfold within. lia. }
      apply covers_cons in Hin as [Hw|Hr].
      - unfold within in Hw. lia.
      - pose proof (separatedFrom_covers _ _ _ Sj Hr). lia. }
    assert (Es : start i1 = start i2).
    { pose proof (Hlow i1 r1 i2 r2 V1 V2 S2 Hc).
      pose proof (Hlow i2 r2 i1 r1 V2 V1 S1 (fun t => iff_sym (Hc t))).
      lia. }
    assert (Hhigh : forall (i : Interval) r j r',
               start i = start j -> start i < end_ i -> start j < end_ j ->
               separatedFrom (end_ i) r ->
               (forall t, covers (i :: r) t <-> covers (j :: r') t) ->
               end_ j <= end_ i).
    { intros i r j r' E Vi Vj Si H.
      destruct (Z_le_gt_dec (end_ j) (end_ i)) as [|G]; [assumption|].
      exfalso.
      assert (Hin : covers (i :: r) (end_ i)).
      { apply H. apply covers_cons. left. unfold within. lia. }
      apply covers_cons in Hin as [Hw|Hr].
      - unfold within in Hw. lia.
      - pose proof (separatedFrom_covers _ _ _ Si Hr). lia. }
    assert (Ee : end_ i1 = end_ i2).
    { pose proof (Hhigh i1 r1 i2 r2 Es V1 V2 S1 Hc).
      pose proof (Hhigh i2 r2 i1 r1 (eq_sym Es) V2 V1 S2
                        (fun t => iff_sym (Hc t))).
      lia. }
    assert (Ei : i1 = i2).
    { destruct i1, i2; simpl in *; congruence. }
    subst i2. f_equal.
    apply IH.
    + eapply separatedFrom_canonical; exact S1.
    + eapply separatedFrom_canonical; exact S2.
    + intros t. specialize (Hc t). rewrite !covers_cons in Hc.
      split; intros Hr.
      * pose proof (separatedFrom_covers _ _ _ S1 Hr).
        destruct Hc as [Hc _]. destruct (Hc (or_intror Hr)) as [Hw|]; auto.
        unfold within in Hw. lia.
      * pose proof (separatedFrom_covers _ _ _ S2 Hr).
        destruct Hc as [_ Hc]. destruct (Hc (or_intror Hr)) as [Hw|]; auto.
        unfold within in Hw. lia.
Qed.

Lemma separatedFrom_lower (b : Z) (l : list Interval) :
  separatedFrom b l -> forall k, In k l -> b < start k /\ start k < end_ k.
Proof.
  revert b. induction l as [|a r IH]; intros b H k Hk; simpl in *.
  - destruct Hk.
  - destruct H as [H1 [H2 H3]]. destruct Hk as [<-|Hk]; [lia|].
    specialize (IH _ H3 k Hk). lia.
Qed.

(** Two intervals of a canonical list are the same or lie apart, with a
    gap between them. *)
Lemma canonical_apart (l : list Interval) :
  canonical l ->
  forall i j, In i l -> In j l ->
              i = j \/ end_ i < start j \/ end_ j < start i.
Proof.
  induction l as [|a r IH]; intros Hc i j Hi Hj; [destruct Hi|].
  simpl in Hc. destruct Hc as [Ha Hr].
  pose proof (separatedFrom_lower _ _ Hr) as Hl.
  destruct Hi as [<-|Hi]; destruct Hj as [<-|Hj].
  - left; reflexivity.
  - right; left. apply Hl; exact Hj.
  - right; right. apply Hl; exact Hi.
  - apply IH; auto. eapply separatedFrom_canonical; exact Hr.
Qed.

(** ** The sweep *)

Lemma gaps_covers (we : Z) (l : list Interval) :
  ascending l -> (forall i, In i l -> start i <= we) ->
  forall cur t,
    covers (gaps we l cur) t <-> (cur <= t < we /\ ~ covers l t).
Proof.
  unfold ascending.
  induction l as [|i r IH]; intros Hs Hb cur t; simpl.
  - destruct (cur <? we) eqn:E.
    + apply Z.ltb_lt in E. rewrite covers_cons. unfold within; simpl.
      pose proof (covers_nil t). tauto.
    + apply Z.ltb_ge in E. pose proof (covers_nil t).
      split; [tauto | lia].
  - apply StronglySorted_inv in Hs as [Hr Hi].
    rewrite Forall_forall in Hi.
    assert (Hlater : covers r t -> start i <= t).
    { intros [j [Hj Hw]]. specialize (Hi j Hj). unfold within in Hw. lia. }
    pose proof (Hb i (or_introl eq_refl)) as Hiwe.
    rewrite covers_app, covers_cons.
    rewrite (IH Hr (fun j Hj => Hb j (or_intror Hj))).
    unfold within. rewrite !Z.gtb_ltb.
    pose proof (covers_nil t).
    destruct (Z.ltb_spec cur (start i)); destruct (Z.ltb_spec cur (end_ i));
      rewrite ?covers_cons; unfold within; simpl;
      destruct (Z_lt_dec t (start i)); destruct (Z_lt_dec t (end_ i));
      destruct (Z_lt_dec t cur); destruct (Z_lt_dec t we);
      intuition lia.
Qed.

Lemma gaps_separated (we : Z) (l : list Interval) :
  (forall i, In i l -> start i < end_ i) ->
  forall b cur, b < cur -> separatedFrom b (gaps we l cur).
Proof.
  induction l as [|i r IH]; intros Hv b cur Hb; simpl.
  - destruct (cur <? we) eqn:E; simpl; [|exact I].
    apply Z.ltb_lt in E. lia.
  - pose proof (Hv i (or_introl eq_refl)) as Vi.
    assert (Hr : forall j, In j r -> start j < end_ j)
      by (intros j Hj; apply Hv; right; exact Hj).
    rewrite !Z.gtb_ltb.
    destruct (Z.ltb_spec cur (start i)); destruct (Z.ltb_spec cur (end_ i));
      simpl; repeat split; try lia; apply IH; auto; lia.
Qed.

Lemma gaps_ordered (we : Z) (l : list Interval) :
  (forall i, In i l -> start i <= end_ i) ->
  forall b cur, b <= cur -> orderedFrom b (gaps we l cur).
Proof.
  induction l as [|i r IH]; intros Hv b cur Hb; simpl.
  - destruct (cur <? we) eqn:E; simpl; [|exact I].
    apply Z.ltb_lt in E. lia.
  - pose proof (Hv i (or_introl eq_refl)) as Vi.
    assert (Hr : forall j, In j r -> start j <= end_ j)
      by (intros j Hj; apply Hv; right; exact Hj).
    rewrite !Z.gtb_ltb.
    destruct (Z.ltb_spec cur (start i)); destruct (Z.ltb_spec cur (end_ i));
      simpl; repeat split; try lia; apply IH; auto; lia.
Qed.

Lemma orderedFrom_lower (b : Z) (l : list Interval) :
  orderedFrom b l -> Forall (fun j => b <= start j /\ b <= end_ j) l.
Proof.
  revert b. induction l as [|i r IH]; intros b H; simpl in *.
  - constructor.
  - destruct H as [H1 [H2 H3]]. constructor; [lia|].
    specialize (IH _ H3). rewrite Forall_forall in *.
    intros j Hj. specialize (IH j Hj). lia.
Qed.

Lemma orderedFrom_sorted (b : Z) (l : list Interval) :
  orderedFrom b l -> ascending l /\ nonOverlapping l.
Proof.
  unfold ascending, nonOverlapping.
  revert b. induction l as [|i r IH]; intros b H; simpl in *.
  - split; constructor.
  - destruct H as [H1 [H2 H3]].
    destruct (IH _ H3) as [IA IN].
    pose proof (orderedFrom_lower _ _ H3) as HF.
    rewrite Forall_forall in HF.
    split; constructor; auto; rewrite Forall_forall; intros j Hj;
      specialize (HF j Hj); unfold overlaps; lia.
Qed.

Lemma separatedFrom_ordered (b : Z) (l : list Interval) :
  separatedFrom b l -> orderedFrom b l.
Proof.
  revert b. induction l as [|i r IH]; intros b H; simpl in *; [exact I|].
  destruct H as [H1 [H2 H3]]. repeat split; try lia. auto.
Qed.

(** The loop of [findFreeSlots], finished by the trailing slot, emits the
    gaps of the clamped slots that meet the window. *)
Lemma findFreeSlots_loop (ws we : Z) (l : list Interval) :
  forall acc cur,
    (let '(freeSlots, current) :=
       fold_left (findFreeSlots_step ws we) l (acc, cur) in
     if current <? we then freeSlots ++ [mkInterval current we]
     else freeSlots)
    = acc ++ gaps we (map (clampTo ws we) (filter (meetsWindow ws we) l)) cur.
Proof.
  induction l as [|i r IH]; intros acc cur; simpl.
  - destruct (cur <? we); [reflexivity | rewrite app_nil_r; reflexivity].
  - unfold meetsWindow at 1.
    destruct ((end_ i <=? ws) || (start i >=? we)) eqn:E; simpl.
    + apply IH.
    + destruct ((if start i <? ws then ws else start i) >? cur);
        rewrite IH; [rewrite <- app_assoc|]; reflexivity.
Qed.

(** The loop of [findBusyFromFreeSlots] emits the rendered gaps of the
    clamped free slots. *)
Lemma findBusy_loop (tz ws we : Z) (l : list Interval) :
  forall acc cur,
    (let '(busySlots, current) :=
       fold_left (findBusy_step tz ws we) l (acc, cur) in
     if current <? we
     then busySlots ++ [mkBusy (formatTime tz current) (formatTime tz we)
                               "Busy"]
     else busySlots)
    = acc ++ map (renderGap tz) (gaps we (map (clampTo ws we) l) cur).
Proof.
  induction l as [|i r IH]; intros acc cur; simpl.
  - destruct (cur <? we); [reflexivity | rewrite app_nil_r; reflexivity].
  - destruct ((if start i <? ws then ws else start i) >? cur);
      rewrite IH; [rewrite <- app_assoc|]; reflexivity.
Qed.

Lemma findFreeSlots_gaps (tz : Z) (slots : list FreeBusySlot)
    (dayStart dayEnd workStart workEnd : Z) :
  findFreeSlots tz slots dayStart dayEnd workStart workEnd =
  gaps (windowEnd tz dayStart workEnd)
       (map (clampTo (windowStart tz dayStart workStart)
                     (windowEnd tz dayStart workEnd))
            (filter (meetsWindow (windowStart tz dayStart workStart)
                                 (windowEnd tz dayStart workEnd))
                    (sortByStart (busyIntervals slots))))
       (windowStart tz dayStart workStart).
Proof.
  unfold findFreeSlots, windowStart, windowEnd.
  apply (findFreeSlots_loop _ _ _ []).
Qed.

Lemma findBusyFromFreeSlots_gaps (tz : Z) (items : list ScheduleItem)
    (dayStart workStart workEnd : Z) :
  findBusyFromFreeSlots tz items dayStart workStart workEnd =
  map (renderGap tz) (findBusyGaps tz items dayStart workStart workEnd).
Proof.
  unfold findBusyFromFreeSlots, findBusyGaps.
  apply (findBusy_loop _ _ _ _ []).
Qed.

(** ** Clamping to the window *)

Lemma meetsWindow_spec (ws we : Z) (i : Interval) :
  meetsWindow ws we i = true <-> ws < end_ i /\ start i < we.
Proof.
  unfold meetsWindow. rewrite negb_true_iff, orb_false_iff.
  rewrite Z.leb_gt, Z.geb_leb, Z.leb_gt. tauto.
Qed.

Lemma clampTo_start (ws we : Z) (i : Interval) :
  start (clampTo ws we i) = Z.max (start i) ws.
Proof. simpl. destruct (Z.ltb_spec (start i) ws); lia. Qed.

Lemma clampTo_end (ws we : Z) (i : Interval) :
  end_ (clampTo ws we i) = Z.min (end_ i) we.
Proof. simpl. rewrite Z.gtb_ltb. destruct (Z.ltb_spec we (end_ i)); lia. Qed.

Lemma clampTo_within (ws we : Z) (i : Interval) (t : Z) :
  ws <= t < we -> (within (clampTo ws we i) t <-> within i t).
Proof.
  intros Ht. unfold within. rewrite clampTo_start, clampTo_end. lia.
Qed.

Lemma covers_clampTo (ws we : Z) (l : list Interval) (t : Z) :
  ws <= t < we -> (covers (map (clampTo ws we) l) t <-> covers l t).
Proof.
  intros Ht. unfold covers. split.
  - intros [c [Hc Hw]]. apply in_map_iff in Hc as [i [<- Hi]].
    exists i. split; [exact Hi|]. apply (clampTo_within ws we); assumption.
  - intros [i [Hi Hw]]. exists (clampTo ws we i). split.
    + apply in_map; exact Hi.
    + apply clampTo_within; assumption.
Qed.

Lemma covers_meetsWindow (ws we : Z) (l : list Interval) (t : Z) :
  ws <= t < we -> (covers (filter (meetsWindow ws we) l) t <-> covers l t).
Proof.
  intros Ht. unfold covers. split.
  - intros [i [Hi Hw]]. apply filter_In in Hi as [Hi _]. eauto.
  - intros [i [Hi Hw]]. exists i. split; [|exact Hw].
    apply filter_In. split; [exact Hi|].
    apply meetsWindow_spec. unfold within in Hw. lia.
Qed.

Lemma allMeet_filter (ws we : Z) (l : list Interval) :
  allMeet ws we (filter (meetsWindow ws we) l).
Proof. intros i Hi. apply filter_In in Hi. tauto. Qed.

Lemma allMeet_sortByStart (ws we : Z) (l : list Interval) :
  allMeet ws we l -> allMeet ws we (sortByStart l).
Proof. intros H i Hi. apply H. apply sortByStart_In. exact Hi. Qed.

Lemma clamped_bound (ws we : Z) (l : list Interval) :
  ws <= we -> allMeet ws we l ->
  forall c, In c (map (clampTo ws we) l) -> start c <= we.
Proof.
  intros Hw Hm c Hc. apply in_map_iff in Hc as [i [<- Hi]].
  apply Hm, meetsWindow_spec in Hi. rewrite clampTo_start. lia.
Qed.

Lemma clamped_valid (ws we : Z) (l : list Interval) :
  ws < we -> allMeet ws we l -> (forall i, In i l -> start i < end_ i) ->
  forall c, In c (map (clampTo ws we) l) -> start c < end_ c.
Proof.
  intros Hw Hm Hv c Hc. apply in_map_iff in Hc as [i [<- Hi]].
  specialize (Hv i Hi). apply Hm, meetsWindow_spec in Hi.
  rewrite clampTo_start, clampTo_end. lia.
Qed.

Lemma clamped_weakly_valid (ws we : Z) (l : list Interval) :
  ws < we -> allMeet ws we l -> (forall i, In i l -> start i <= end_ i) ->
  forall c, In c (map (clampTo ws we) l) -> start c <= end_ c.
Proof.
  intros Hw Hm Hv c Hc. apply in_map_iff in Hc as [i [<- Hi]].
  specialize (Hv i Hi). apply Hm, meetsWindow_spec in Hi.
  rewrite clampTo_start, clampTo_end. lia.
Qed.

(** With an empty or inverted window the sweep emits nothing. *)
Lemma gaps_degenerate (ws we : Z) (l : list Interval) :
  we <= ws -> allMeet ws we l ->
  gaps we (map (clampTo ws we) l) ws = [].
Proof.
  intros Hw. induction l as [|i r IH]; intros Hm; simpl.
  - destruct (Z.ltb_spec ws we); [lia | reflexivity].
  - pose proof (Hm i (or_introl eq_refl)) as Hi.
    apply meetsWindow_spec in Hi.
    rewrite !Z.gtb_ltb.
    destruct (Z.ltb_spec (start i) ws); [|lia].
    destruct (Z.ltb_spec we (end_ i)); [|lia].
    destruct (Z.ltb_spec ws ws); [lia|].
    destruct (Z.ltb_spec ws we); [lia|].
    apply IH. intros j Hj. apply Hm. right. exact Hj.
Qed.

(** The sweep over a start-ascending list of intervals that meet the
    window covers exactly the instants of the window the list leaves
    uncovered. *)
Lemma sweep_covers (ws we : Z) (l : list Interval) (t : Z) :
  ascending l -> allMeet ws we l ->
  (covers (gaps we (map (clampTo ws we) l) ws) t
   <-> (ws <= t < we /\ ~ covers l t)).
Proof.
  intros Ha Hm.
  destruct (Z_lt_le_dec ws we) as [Hw|Hw].
  - rewrite gaps_covers.
    + split; intros [Ht Hn]; (split; [exact Ht|]);
        intros Hc; apply Hn; apply (covers_clampTo ws we); assumption.
    + apply ascending_clampTo; exact Ha.
    + apply clamped_bound; [lia | exact Hm].
  - rewrite gaps_degenerate by assumption.
    split; [intros H; destruct (covers_nil t H) | lia].
Qed.

Lemma sweep_canonical (ws we : Z) (l : list Interval) :
  allMeet ws we l -> (forall i, In i l -> start i < end_ i) ->
  canonical (gaps we (map (clampTo ws we) l) ws).
Proof.
  intros Hm Hv.
  destruct (Z_lt_le_dec ws we) as [Hw|Hw].
  - apply (separatedFrom_canonical (ws - 1)).
    apply gaps_separated; [|lia].
    apply clamped_valid; assumption.
  - rewrite gaps_degenerate by assumption. exact I.
Qed.

Lemma sweep_ordered (ws we : Z) (l : list Interval) :
  allMeet ws we l -> (forall i, In i l -> start i <= end_ i) ->
  orderedFrom ws (gaps we (map (clampTo ws we) l) ws).
Proof.
  intros Hm Hv.
  destruct (Z_lt_le_dec ws we) as [Hw|Hw].
  - apply gaps_ordered; [|lia].
    apply clamped_weakly_valid; assumption.
  - rewrite gaps_degenerate by assumption. exact I.
Qed.

Lemma freeIntervals_meetsWindow (ws we : Z) (items : list ScheduleItem) :
  freeIntervals ws we items =
  filter (meetsWindow ws we)
         (map itemInterval
              (filter (fun it => isFree (item_status it)) items)).
Proof.
  unfold freeIntervals. apply filter_ext. intros i. unfold meetsWindow.
  rewrite negb_orb, Z.gtb_ltb, Z.geb_leb.
  rewrite !Z.ltb_antisym.
  reflexivity.
Qed.

(** ** The two sweeps of the source *)

Lemma busyIntervals_covers (slots : list FreeBusySlot) (t : Z) :
  covers (busyIntervals slots) t <-> busyAt slots t.
Proof.
  unfold covers, busyAt, busyIntervals, within. split.
  - intros [i [Hi Hw]]. apply in_map_iff in Hi as [s [<- Hs]].
    apply filter_In in Hs as [Hs Hf]. apply negb_true_iff in Hf.
    exists s. simpl in Hw. auto.
  - intros [s [Hs [Hf Hw]]].
    exists (mkInterval (slot_start s) (slot_end s)). split; [|exact Hw].
    apply in_map_iff. exists s. split; [reflexivity|].
    apply filter_In. split; [exact Hs|]. apply negb_true_iff; exact Hf.
Qed.

Lemma busyIntervals_valid (slots : list FreeBusySlot) :
  wellFormedBusy slots ->
  forall i, In i (busyIntervals slots) -> start i < end_ i.
Proof.
  intros Hwf i Hi. unfold busyIntervals in Hi.
  apply in_map_iff in Hi as [s [<- Hs]].
  apply filter_In in Hs as [Hs Hf]. apply negb_true_iff in Hf.
  simpl. apply Hwf; assumption.
Qed.

Lemma freeItems_covers (items : list ScheduleItem) (t : Z) :
  covers (map itemInterval (filter (fun it => isFree (item_status it)) items))
         t
  <-> freeAt items t.
Proof.
  unfold covers, freeAt, within. split.
  - intros [i [Hi Hw]]. apply in_map_iff in Hi as [it [<- Hs]].
    apply filter_In in Hs as [Hs Hf]. exists it. simpl in Hw. auto.
  - intros [it [Hs [Hf Hw]]].
    exists (itemInterval it). split; [|exact Hw].
    apply in_map. apply filter_In. auto.
Qed.

Lemma freeItems_valid (items : list ScheduleItem) :
  wellFormedFree items ->
  forall i,
    In i (map itemInterval
              (filter (fun it => isFree (item_status it)) items)) ->
    start i < end_ i.
Proof.
  intros Hwf i Hi. apply in_map_iff in Hi as [it [<- Hs]].
  apply filter_In in Hs as [Hs Hf]. simpl. apply Hwf; assumption.
Qed.

Section Sweeps.

Variable tz : Z.
Variables dayStart dayEnd workStart workEnd : Z.

Let ws := windowStart tz dayStart workStart.
Let we := windowEnd tz dayStart workEnd.

(** The free slots cover exactly the instants of the window that no
    busy slot contains. *)
Lemma findFreeSlots_covers (slots : list FreeBusySlot) (t : Z) :
  covers (findFreeSlots tz slots dayStart dayEnd workStart workEnd) t
  <-> (ws <= t < we /\ ~ busyAt slots t).
Proof.
  rewrite findFreeSlots_gaps. fold ws we.
  rewrite sweep_covers.
  - split; intros [Ht Hn]; (split; [exact Ht|]); intros Hc; apply Hn.
    + apply covers_meetsWindow; [exact Ht|].
      apply covers_sortByStart, busyIntervals_covers; exact Hc.
    + apply (proj1 (covers_meetsWindow ws we _ t Ht)) in Hc.
      apply -> covers_sortByStart in Hc.
      apply -> busyIntervals_covers in Hc; exact Hc.
  - apply ascending_filter, sortByStart_ascending.
  - apply allMeet_filter.
Qed.

Lemma findFreeSlots_canonical (slots : list FreeBusySlot) :
  wellFormedBusy slots ->
  canonical (findFreeSlots tz slots dayStart dayEnd workStart workEnd).
Proof.
  intros Hwf. rewrite findFreeSlots_gaps. fold ws we.
  apply sweep_canonical; [apply allMeet_filter|].
  intros i Hi. apply filter_In in Hi as [Hi _].
  apply -> sortByStart_In in Hi.
  exact (busyIntervals_valid slots Hwf i Hi).
Qed.

(** The busy gaps cover exactly the instants of the window that no free
    item contains. *)
Lemma findBusyGaps_covers (items : list ScheduleItem) (t : Z) :
  covers (findBusyGaps tz items dayStart workStart workEnd) t
  <-> (ws <= t < we /\ ~ freeAt items t).
Proof.
  unfold findBusyGaps. fold (windowStart tz dayStart workStart).
  fold (windowEnd tz dayStart workEnd). fold ws we.
  rewrite freeIntervals_meetsWindow.
  rewrite sweep_covers.
  - split; intros [Ht Hn]; (split; [exact Ht|]); intros Hc; apply Hn.
    + apply covers_sortByStart. apply covers_meetsWindow; [exact Ht|].
      apply freeItems_covers; exact Hc.
    + apply -> covers_sortByStart in Hc.
      apply (proj1 (covers_meetsWindow ws we _ t Ht)) in Hc.
      apply -> freeItems_covers in Hc; exact Hc.
  - apply sortByStart_ascending.
  - apply allMeet_sortByStart, allMeet_filter.
Qed.

Lemma findBusyGaps_canonical (items : list ScheduleItem) :
  wellFormedFree items ->
  canonical (findBusyGaps tz items dayStart workStart workEnd).
Proof.
  intros Hwf. unfold findBusyGaps.
  rewrite freeIntervals_meetsWindow.
  apply sweep_canonical; [apply allMeet_sortByStart, allMeet_filter|].
  intros i Hi. apply -> sortByStart_In in Hi.
  apply filter_In in Hi as [Hi _].
  exact (freeItems_valid items Hwf i Hi).
Qed.

End Sweeps.

(** ** Free-slot extraction *)

(** The busy slots of the end-to-end scenario: 10:00-10:30 [Busy] and
    13:00-14:00 [Tentative]. *)
Lemma scenarioSlots_wellFormed :
  wellFormedBusy
    [mkSlot (clock jan1 10 0) (clock jan1 10 30) "Busy" None;
     mkSlot (clock jan1 13 0) (clock jan1 14 0) "Tentative" None].
Proof.
  intros s [<-|[<-|[]]] _; reflexivity.
Defined.

(** C1. [findFreeSlots] returns the maximal free intervals of the work
    window.  On every input the list it returns covers exactly the
    instants of the window that no slot of status other than [Free]
    contains.  On slots that respect the [start < end] invariant of the
    data model the list is canonical: its intervals are non-empty, sorted
    by start and pairwise non-overlapping, and they are maximal, as every
    interval of free time lies inside one of them; it is the only
    canonical list with that coverage.  For the window 09:00-17:00 and the
    busy slots 10:00-10:30 [Busy] and 13:00-14:00 [Tentative] it is
    09:00-10:00, 10:30-13:00, 14:00-17:00. *)
Theorem findFreeSlots_maximal_free_intervals
    (tz : Z) (slots : list FreeBusySlot)
    (dayStart dayEnd workStart workEnd : Z) :
  let out := findFreeSlots tz slots dayStart dayEnd workStart workEnd in
  let isFreeInstant t :=
    windowStart tz dayStart workStart <= t < windowEnd tz dayStart workEnd
    /\ ~ busyAt slots t in
  (forall t, covers out t <-> isFreeInstant t) /\
  (wellFormedBusy slots ->
   canonical out /\ ascending out /\ nonOverlapping out /\
   (forall a b, a < b -> (forall t, a <= t < b -> isFreeInstant t) ->
                exists i, In i out /\ start i <= a /\ b <= end_ i) /\
   (forall l, canonical l -> (forall t, covers l t <-> isFreeInstant t) ->
              l = out)) /\
  findFreeSlots 0
    [mkSlot (clock jan1 10 0) (clock jan1 10 30) "Busy" None;
     mkSlot (clock jan1 13 0) (clock jan1 14 0) "Tentative" None]
    jan1 (jan1 + 86399999) 9 17
  = [mkInterval (clock jan1 9 0) (clock jan1 10 0);
     mkInterval (clock jan1 10 30) (clock jan1 13 0);
     mkInterval (clock jan1 14 0) (clock jan1 17 0)].
Proof.
  intros out isFreeInstant.
  assert (Hcov : forall t, covers out t <-> isFreeInstant t)
    by (intros t; apply findFreeSlots_covers).
  split; [exact Hcov|]. split; [|vm_compute; reflexivity].
  intros Hwf.
  assert (Hcan : canonical out) by (apply findFreeSlots_canonical; exact Hwf).
  assert (Hord : ascending out /\ nonOverlapping out).
  { destruct out as [|i r]; [split; constructor|].
    apply (orderedFrom_sorted (start i)). simpl in Hcan |- *.
    destruct Hcan as [Hi Hr]. repeat split; try lia.
    apply separatedFrom_ordered; exact Hr. }
  split; [exact Hcan|]. split; [apply Hord|]. split; [apply Hord|]. split.
  - intros a b Hab Hfree.
    assert (Ha : covers out a) by (apply Hcov, Hfree; lia).
    destruct Ha as [i [Hi Wi]]. exists i. unfold within in Wi.
    split; [exact Hi|]. split; [lia|].
    destruct (Z_le_gt_dec b (end_ i)) as [|Hlt]; [assumption|]. exfalso.
    assert (He : covers out (end_ i)) by (apply Hcov, Hfree; lia).
    destruct He as [j [Hj Wj]]. unfold within in Wj.
    destruct (canonical_apart out Hcan i j Hi Hj) as [<-|[H|H]]; lia.
  - intros l Hl Hc. apply canonical_unique; try assumption.
    intros t. rewrite Hc, Hcov. tauto.
Qed.

(** Outside the invariant the sweep still covers the free instants, but a
    slot of zero length splits a free interval in two touching ones and a
    slot that ends before it starts makes two free slots overlap. *)
Example findFreeSlots_zero_length_slot :
  findFreeSlots 0 [mkSlot (clock jan1 12 0) (clock jan1 12 0) "Busy" None]
                jan1 (jan1 + 86399999) 9 17
  = [mkInterval (clock jan1 9 0) (clock jan1 12 0);
     mkInterval (clock jan1 12 0) (clock jan1 17 0)].
Proof. vm_compute. reflexivity. Qed.

Example findFreeSlots_inverted_slot :
  findFreeSlots 0 [mkSlot (clock jan1 12 0) (clock jan1 11 0) "Busy" None]
                jan1 (jan1 + 86399999) 9 17
  = [mkInterval (clock jan1 9 0) (clock jan1 12 0);
     mkInterval (clock jan1 11 0) (clock jan1 17 0)].
Proof. vm_compute. reflexivity. Qed.

Lemma findFreeSlots_maximal_free_intervals_witness :
  canonical
    (findFreeSlots 0
       [mkSlot (clock jan1 10 0) (clock jan1 10 30) "Busy" None;
        mkSlot (clock jan1 13 0) (clock jan1 14 0) "Tentative" None]
       jan1 (jan1 + 86399999) 9 17).
Proof.
  apply (findFreeSlots_maximal_free_intervals 0 _ jan1 (jan1 + 86399999) 9 17).
  exact scenarioSlots_wellFormed.
Defined.

(** ** Degenerate windows *)

Lemma window_order (tz dayStart workStart workEnd : Z) :
  workEnd <= workStart ->
  windowEnd tz dayStart workEnd <= windowStart tz dayStart workStart.
Proof.
  unfold windowEnd, windowStart, setHours, msPerHour, msPerMinute. lia.
Qed.

(** C9. When the start hour of the work window is greater than or equal
    to its end hour, [findFreeSlots] and [findBusyFromFreeSlots] both
    return the empty list, whatever the input list is. *)
Theorem degenerate_window_yields_nothing
    (tz : Z) (slots : list FreeBusySlot) (items : list ScheduleItem)
    (dayStart dayEnd workStart workEnd : Z) :
  workStart >= workEnd ->
  findFreeSlots tz slots dayStart dayEnd workStart workEnd = [] /\
  findBusyFromFreeSlots tz items dayStart workStart workEnd = [].
Proof.
  intros Hh.
  assert (Hw : windowEnd tz dayStart workEnd
               <= windowStart tz dayStart workStart)
    by (apply window_order; lia).
  split.
  - rewrite findFreeSlots_gaps.
    apply gaps_degenerate; [exact Hw | apply allMeet_filter].
  - rewrite findBusyFromFreeSlots_gaps. unfold findBusyGaps.
    rewrite freeIntervals_meetsWindow.
    fold (windowStart tz dayStart workStart).
    fold (windowEnd tz dayStart workEnd).
    rewrite gaps_degenerate; [reflexivity | exact Hw |].
    apply allMeet_sortByStart, allMeet_filter.
Qed.

Lemma degenerate_window_yields_nothing_witness :
  findFreeSlots 0
    [mkSlot (clock jan1 10 0) (clock jan1 10 30) "Busy" None]
    jan1 (jan1 + 86399999) 17 9 = [] /\
  findBusyFromFreeSlots 0
    [mkItem "Free" (mkDateTimeTZ (clock jan1 9 0) "UTC")
            (mkDateTimeTZ (clock jan1 12 0) "UTC") None]
    jan1 17 9 = [].
Proof.
  apply (degenerate_window_yields_nothing 0 _ _ jan1 (jan1 + 86399999) 17 9).
  lia.
Defined.

(** ** Status filtering *)

(** C10. [findBusyFromFreeSlots] reads only the items whose status is
    exactly [Free]: two inputs with the same [Free] items give the same
    output, and an item of any other status can be added anywhere without
    changing it.  Dually [findFreeSlots] reads only the slots whose status
    is not [Free]. *)
Theorem status_filter_noninterference
    (tz dayStart dayEnd workStart workEnd : Z) :
  (forall a b : list ScheduleItem,
     filter (fun it => isFree (item_status it)) a =
     filter (fun it => isFree (item_status it)) b ->
     findBusyFromFreeSlots tz a dayStart workStart workEnd =
     findBusyFromFreeSlots tz b dayStart workStart workEnd) /\
  (forall (a b : list ScheduleItem) (x : ScheduleItem),
     isFree (item_status x) = false ->
     findBusyFromFreeSlots tz (a ++ x :: b) dayStart workStart workEnd =
     findBusyFromFreeSlots tz (a ++ b) dayStart workStart workEnd) /\
  (forall a b : list FreeBusySlot,
     filter (fun s => negb (isFree (slot_status s))) a =
     filter (fun s => negb (isFree (slot_status s))) b ->
     findFreeSlots tz a dayStart dayEnd workStart workEnd =
     findFreeSlots tz b dayStart dayEnd workStart workEnd) /\
  (forall (a b : list FreeBusySlot) (x : FreeBusySlot),
     isFree (slot_status x) = true ->
     findFreeSlots tz (a ++ x :: b) dayStart dayEnd workStart workEnd =
     findFreeSlots tz (a ++ b) dayStart dayEnd workStart workEnd).
Proof.
  assert (H1 : forall a b : list ScheduleItem,
     filter (fun it => isFree (item_status it)) a =
     filter (fun it => isFree (item_status it)) b ->
     findBusyFromFreeSlots tz a dayStart workStart workEnd =
     findBusyFromFreeSlots tz b dayStart workStart workEnd).
  { intros a b E. unfold findBusyFromFreeSlots, freeIntervals.
    rewrite E. reflexivity. }
  assert (H2 : forall a b : list FreeBusySlot,
     filter (fun s => negb (isFree (slot_status s))) a =
     filter (fun s => negb (isFree (slot_status s))) b ->
     findFreeSlots tz a dayStart dayEnd workStart workEnd =
     findFreeSlots tz b dayStart dayEnd workStart workEnd).
  { intros a b E. unfold findFreeSlots, busyIntervals.
    rewrite E. reflexivity. }
  split; [|split; [|split]].
  - exact H1.
  - intros a b x Hx. apply H1.
    rewrite !filter_app. simpl. rewrite Hx. reflexivity.
  - exact H2.
  - intros a b x Hx. apply H2.
    rewrite !filter_app. simpl. rewrite Hx. reflexivity.
Qed.

Lemma status_filter_noninterference_witness :
  findBusyFromFreeSlots 0
    ([mkItem "Free" (mkDateTimeTZ (clock jan1 9 0) "UTC")
             (mkDateTimeTZ (clock jan1 12 0) "UTC") None]
     ++ mkItem "Busy" (mkDateTimeTZ (clock jan1 12 0) "UTC")
               (mkDateTimeTZ (clock jan1 13 0) "UTC") None :: [])
    jan1 9 17 =
  findBusyFromFreeSlots 0
    ([mkItem "Free" (mkDateTimeTZ (clock jan1 9 0) "UTC")
             (mkDateTimeTZ (clock jan1 12 0) "UTC") None] ++ [])
    jan1 9 17.
Proof.
  apply (status_filter_noninterference 0 jan1 (jan1 + 86399999) 9 17).
  reflexivity.
Defined.

(** ** Gap inversion against its specification *)

Lemma specSweep_gaps (tz we : Z) (l : list Interval) :
  forall cur,
    (let '(busy, cursor) := specSweep tz l cur in
     if cursor <? we
     then busy ++ [mkBusy (formatTime tz cursor) (formatTime tz we) "Busy"]
     else busy)
    = map (renderGap tz) (gaps we l cur).
Proof.
  induction l as [|i r IH]; intros cur; simpl.
  - destruct (cur <? we); reflexivity.
  - rewrite !Z.gtb_ltb.
    replace (if cur <? end_ i then end_ i else cur) with (Z.max cur (end_ i))
      by (destruct (Z.ltb_spec cur (end_ i)); lia).
    specialize (IH (Z.max cur (end_ i))).
    destruct (specSweep tz r (Z.max cur (end_ i))) as [rest final].
    rewrite map_app, <- IH.
    destruct (cur <? start i); destruct (final <? we); simpl;
      reflexivity.
Qed.

Lemma gapInverter_gaps (tz : Z) (ivs : list Interval) (ws we : Z) :
  gapInverter tz ivs ws we =
  map (renderGap tz) (gaps we (sortByStart (clampAll ws we ivs)) ws).
Proof. unfold gapInverter. apply specSweep_gaps. Qed.

Lemma clampAll_In (ws we : Z) (l : list Interval) (c : Interval) :
  In c (clampAll ws we l) <-> exists i, In i l /\ clamp ws we i = Some c.
Proof.
  induction l as [|x r IH]; simpl.
  - split; [tauto | intros [i [[] _]]].
  - destruct (clamp ws we x) as [cx|] eqn:E; simpl; rewrite IH; split.
    + intros [<-|[i [Hi Hc]]]; [exists x | exists i]; auto.
    + intros [i [[<-|Hi] Hc]]; [left; congruence | right; eauto].
    + intros [i [Hi Hc]]; eauto.
    + intros [i [[<-|Hi] Hc]]; [congruence | eauto].
Qed.

Lemma clamp_Some (ws we : Z) (i c : Interval) :
  clamp ws we i = Some c ->
  start c = Z.max (start i) ws /\ end_ c = Z.min (end_ i) we /\
  start c < end_ c.
Proof.
  unfold clamp. rewrite Z.geb_leb.
  destruct (Z.leb_spec (Z.min (end_ i) we) (Z.max (start i) ws));
    [discriminate|].
  intros E. injection E as <-. simpl. auto.
Qed.

Lemma covers_clampAll (ws we : Z) (l : list Interval) (t : Z) :
  ws <= t < we -> (covers (clampAll ws we l) t <-> covers l t).
Proof.
  intros Ht. unfold covers, within. split.
  - intros [c [Hc Hw]]. apply clampAll_In in Hc as [i [Hi Hc]].
    apply clamp_Some in Hc as [Hs [He _]]. exists i. split; [exact Hi|]. lia.
  - intros [i [Hi Hw]].
    destruct (clamp ws we i) as [c|] eqn:E.
    + exists c. split; [apply clampAll_In; eauto|].
      apply clamp_Some in E as [Hs [He _]]. lia.
    + exfalso. unfold clamp in E. rewrite Z.geb_leb in E.
      destruct (Z.leb_spec (Z.min (end_ i) we) (Z.max (start i) ws));
        [lia | discriminate].
Qed.

(** The specified gap inverter computes the canonical complement of its
    input within the window. *)
Lemma specGaps_canonical (ws we : Z) (ivs : list Interval) :
  canonical (gaps we (sortByStart (clampAll ws we ivs)) ws).
Proof.
  apply (separatedFrom_canonical (ws - 1)).
  apply gaps_separated; [|lia].
  intros c Hc. apply -> sortByStart_In in Hc.
  apply clampAll_In in Hc as [i [_ Hc]]. apply clamp_Some in Hc. tauto.
Qed.

Lemma specGaps_covers (ws we : Z) (ivs : list Interval) (t : Z) :
  covers (gaps we (sortByStart (clampAll ws we ivs)) ws) t
  <-> (ws <= t < we /\ ~ covers ivs t).
Proof.
  rewrite gaps_covers.
  - split; intros [Ht Hn]; (split; [exact Ht|]); intros Hc; apply Hn.
    + apply covers_sortByStart. apply covers_clampAll; assumption.
    + apply -> covers_sortByStart in Hc.
      apply (proj1 (covers_clampAll ws we _ t Ht)) in Hc. exact Hc.
  - apply sortByStart_ascending.
  - intros c Hc. apply -> sortByStart_In in Hc.
    apply clampAll_In in Hc as [i [_ Hc]]. apply clamp_Some in Hc. lia.
Qed.

Lemma filter_all {A : Type} (p : A -> bool) (l : list A) :
  (forall x, In x l -> p x = true) -> filter p l = l.
Proof.
  induction l as [|x r IH]; intros H; simpl; [reflexivity|].
  rewrite (H x (or_introl eq_refl)). f_equal.
  apply IH. intros y Hy. apply H. right. exact Hy.
Qed.

Lemma insertByStart_Permutation (x : Interval) (l : list Interval) :
  Permutation (insertByStart x l) (x :: l).
Proof.
  induction l as [|y r IH]; simpl; [apply Permutation_refl|].
  destruct (start x <=? start y); [apply Permutation_refl|].
  apply perm_trans with (y :: x :: r); [|apply perm_swap].
  apply perm_skip. exact IH.
Qed.

Lemma sortByStart_Permutation (l : list Interval) :
  Permutation (sortByStart l) l.
Proof.
  induction l as [|x r IH]; simpl; [apply perm_nil|].
  apply perm_trans with (x :: sortByStart r);
    [apply insertByStart_Permutation | apply perm_skip; exact IH].
Qed.

Lemma sweepGaps_gaps (tz : Z) (sorted : list Interval) (ws we : Z) :
  sweepGaps tz sorted ws we = map (renderGap tz) (gaps we sorted ws).
Proof. unfold sweepGaps. apply specSweep_gaps. Qed.

(** The sweep over any start-ascending arrangement of the clamped
    intervals leaves the canonical complement of the input within the
    window. *)
Lemma sortedGaps_canonical (ws we : Z) (ivs sorted : list Interval) :
  Permutation sorted (clampAll ws we ivs) ->
  canonical (gaps we sorted ws).
Proof.
  intros Hp. apply (separatedFrom_canonical (ws - 1)).
  apply gaps_separated; [|lia].
  intros c Hc. apply (Permutation_in _ Hp) in Hc.
  apply clampAll_In in Hc as [i [_ Hc]]. apply clamp_Some in Hc. tauto.
Qed.

Lemma sortedGaps_covers (ws we : Z) (ivs sorted : list Interval) (t : Z) :
  Permutation sorted (clampAll ws we ivs) -> ascending sorted ->
  (covers (gaps we sorted ws) t <-> (ws <= t < we /\ ~ covers ivs t)).
Proof.
  intros Hp Ha.
  assert (Hsame : forall u, covers sorted u <-> covers (clampAll ws we ivs) u).
  { intros u. unfold covers. split; intros [i [Hi Hw]]; exists i;
      (split; [|exact Hw]).
    - exact (Permutation_in _ Hp Hi).
    - exact (Permutation_in _ (Permutation_sym Hp) Hi). }
  rewrite gaps_covers.
  - split; intros [Ht Hn]; (split; [exact Ht|]); intros Hc; apply Hn.
    + apply Hsame. apply covers_clampAll; assumption.
    + apply Hsame in Hc.
      apply (proj1 (covers_clampAll ws we _ t Ht)) in Hc. exact Hc.
  - exact Ha.
  - intros c Hc. apply (Permutation_in _ Hp) in Hc.
    apply clampAll_In in Hc as [i [_ Hc]]. apply clamp_Some in Hc. lia.
Qed.

(** C2. On a list of [Free]-labelled schedule items that respect the
    [start < end] invariant, [findBusyFromFreeSlots] returns what the
    specified gap inverter returns: clamp every interval to the window and
    drop the empty ones, sort by start, sweep a cursor from the window
    start emitting the gap before every interval that starts after it and
    moving it to the maximum of itself and the interval's end, and emit
    the trailing gap up to the window end.  The sort is a sort: the
    result is the sweep over any arrangement of the clamped intervals
    that is ascending by start, and [sortByStart] returns such an
    arrangement of its input.  The free item 09:00-12:00 over the window
    09:00-17:00 gives the single gap 12:00-17:00 of status [Busy]; the
    free items 13:00-14:00 and 10:00-11:00, given in that order, give the
    gaps 09:00-10:00, 11:00-13:00 and 14:00-17:00. *)
Theorem findBusyFromFreeSlots_refines_gapInverter
    (tz : Z) (items : list ScheduleItem) (dayStart workStart workEnd : Z) :
  (forall it, In it items -> isFree (item_status it) = true) ->
  wellFormedFree items ->
  findBusyFromFreeSlots tz items dayStart workStart workEnd =
  gapInverter tz (map itemInterval items)
              (windowStart tz dayStart workStart)
              (windowEnd tz dayStart workEnd)
  /\
  (forall sorted,
     Permutation sorted
       (clampAll (windowStart tz dayStart workStart)
                 (windowEnd tz dayStart workEnd) (map itemInterval items)) ->
     ascending sorted ->
     findBusyFromFreeSlots tz items dayStart workStart workEnd =
     sweepGaps tz sorted (windowStart tz dayStart workStart)
               (windowEnd tz dayStart workEnd))
  /\
  (forall l, Permutation (sortByStart l) l /\ ascending (sortByStart l))
  /\
  findBusyFromFreeSlots 0
    [mkItem "Free" (mkDateTimeTZ (clock jan1 9 0) "UTC")
            (mkDateTimeTZ (clock jan1 12 0) "UTC") None]
    jan1 9 17
  = [mkBusy "12:00" "17:00" "Busy"]
  /\
  findBusyFromFreeSlots 0
    [mkItem "Free" (mkDateTimeTZ (clock jan1 13 0) "UTC")
            (mkDateTimeTZ (clock jan1 14 0) "UTC") None;
     mkItem "Free" (mkDateTimeTZ (clock jan1 10 0) "UTC")
            (mkDateTimeTZ (clock jan1 11 0) "UTC") None]
    jan1 9 17
  = [mkBusy "09:00" "10:00" "Busy"; mkBusy "11:00" "13:00" "Busy";
     mkBusy "14:00" "17:00" "Busy"].
Proof.
  intros Hfree Hwf.
  assert (Hcov : forall t,
            covers (findBusyGaps tz items dayStart workStart workEnd) t <->
            (windowStart tz dayStart workStart <= t
               < windowEnd tz dayStart workEnd /\
             ~ covers (map itemInterval items) t)).
  { intros t. rewrite findBusyGaps_covers.
    rewrite <- freeItems_covers, (filter_all _ _ Hfree). tauto. }
  split; [|split; [|split; [|split]]].
  - rewrite findBusyFromFreeSlots_gaps, gapInverter_gaps. f_equal.
    apply canonical_unique.
    + apply findBusyGaps_canonical; exact Hwf.
    + apply specGaps_canonical.
    + intros t. rewrite Hcov, specGaps_covers. tauto.
  - intros sorted Hp Ha.
    rewrite findBusyFromFreeSlots_gaps, sweepGaps_gaps. f_equal.
    apply canonical_unique.
    + apply findBusyGaps_canonical; exact Hwf.
    + apply (sortedGaps_canonical _ _ (map itemInterval items)); exact Hp.
    + intros t.
      rewrite Hcov, (sortedGaps_covers _ _ (map itemInterval items))
        by assumption.
      tauto.
  - intros l. split; [apply sortByStart_Permutation
                     | apply sortByStart_ascending].
  - vm_compute. reflexivity.
  - vm_compute. reflexivity.
Qed.

(** Outside the invariant the two differ: the specified inverter drops a
    free item of zero length, the source sweeps over it and splits the
    busy gap in two. *)
Example findBusyFromFreeSlots_zero_length_item :
  findBusyFromFreeSlots 0
    [mkItem "Free" (mkDateTimeTZ (clock jan1 12 0) "UTC")
            (mkDateTimeTZ (clock jan1 12 0) "UTC") None]
    jan1 9 17
  = [mkBusy "09:00" "12:00" "Busy"; mkBusy "12:00" "17:00" "Busy"]
  /\
  gapInverter 0
    [mkInterval (clock jan1 12 0) (clock jan1 12 0)]
    (windowStart 0 jan1 9) (windowEnd 0 jan1 17)
  = [mkBusy "09:00" "17:00" "Busy"].
Proof. split; vm_compute; reflexivity. Qed.

Lemma findBusyFromFreeSlots_refines_gapInverter_witness :
  findBusyFromFreeSlots 0
    [mkItem "Free" (mkDateTimeTZ (clock jan1 13 0) "UTC")
            (mkDateTimeTZ (clock jan1 14 0) "UTC") None;
     mkItem "Free" (mkDateTimeTZ (clock jan1 10 0) "UTC")
            (mkDateTimeTZ (clock jan1 11 0) "UTC") None]
    jan1 9 17 =
  gapInverter 0
    (map itemInterval
       [mkItem "Free" (mkDateTimeTZ (clock jan1 13 0) "UTC")
               (mkDateTimeTZ (clock jan1 14 0) "UTC") None;
        mkItem "Free" (mkDateTimeTZ (clock jan1 10 0) "UTC")
               (mkDateTimeTZ (clock jan1 11 0) "UTC") None])
    (windowStart 0 jan1 9) (windowEnd 0 jan1 17).
Proof.
  refine (proj1 (findBusyFromFreeSlots_refines_gapInverter 0 _ jan1 9 17 _ _)).
  - intros it [<-|[<-|[]]]; reflexivity.
  - intros it [<-|[<-|[]]] _; reflexivity.
Defined.

(** ** Complementarity and round trip *)

Lemma freeAt_asFreeItem (l : list Interval) (t : Z) :
  freeAt (map asFreeItem l) t <-> covers l t.
Proof.
  unfold freeAt, covers, within. split.
  - intros [it [Hit [_ Hw]]]. apply in_map_iff in Hit as [i [<- Hi]].
    exists i. simpl in Hw. auto.
  - intros [i [Hi Hw]]. exists (asFreeItem i).
    split; [apply in_map; exact Hi|]. split; [reflexivity | exact Hw].
Qed.

Lemma wellFormedFree_asFreeItem (l : list Interval) :
  (forall i, In i l -> start i < end_ i) -> wellFormedFree (map asFreeItem l).
Proof.
  intros Hv it Hit _. apply in_map_iff in Hit as [i [<- Hi]]. simpl.
  apply (Hv i Hi).
Qed.

(** A gap is only emitted when it is not empty. *)
Lemma gaps_nonempty (we : Z) (l : list Interval) :
  forall cur g, In g (gaps we l cur) -> start g < end_ g.
Proof.
  induction l as [|i r IH]; intros cur g; simpl.
  - destruct (Z.ltb_spec cur we); [|intros []].
    intros [<-|[]]. simpl. lia.
  - rewrite Z.gtb_ltb. intros Hg. apply in_app_or in Hg as [Hg|Hg].
    + destruct (Z.ltb_spec cur (start i)); [|destruct Hg].
      destruct Hg as [<-|[]]. simpl. lia.
    + eapply IH; exact Hg.
Qed.

(** In an ordered list an instant lies in at most one interval. *)
Lemma orderedFrom_within_unique (l : list Interval) (t : Z) :
  forall b, orderedFrom b l ->
  forall i j, In i l -> In j l -> within i t -> within j t -> i = j.
Proof.
  induction l as [|a r IH]; intros b Ho i j Hi Hj Wi Wj; [destruct Hi|].
  simpl in Ho. destruct Ho as [_ [_ Hr]].
  pose proof (orderedFrom_lower _ _ Hr) as Hl. rewrite Forall_forall in Hl.
  assert (Hout : forall k, In k r -> within k t -> within a t -> False).
  { intros k Hk Wk Wa. specialize (Hl k Hk). unfold within in *. lia. }
  destruct Hi as [<-|Hi]; destruct Hj as [<-|Hj].
  - reflexivity.
  - exfalso; eauto.
  - exfalso; eauto.
  - eapply IH; eauto.
Qed.

Lemma busyAt_dec (slots : list FreeBusySlot) (t : Z) :
  busyAt slots t \/ ~ busyAt slots t.
Proof.
  destruct (covers_dec (busyIntervals slots) t) as [H|H];
    rewrite busyIntervals_covers in H; auto.
Qed.

Lemma freeAt_dec (items : list ScheduleItem) (t : Z) :
  freeAt items t \/ ~ freeAt items t.
Proof.
  destruct (covers_dec
              (map itemInterval
                   (filter (fun it => isFree (item_status it)) items)) t)
    as [H|H]; rewrite freeItems_covers in H; auto.
Qed.

(** C4. Take one dataset given both as busy-labelled slots and as
    free-labelled items that are complementary over the work window (an
    instant of the window is busy in the first exactly when it is not free
    in the second), no interval ending before it starts.  Then the free
    slots of [findFreeSlots] together with the busy gaps of
    [findBusyFromFreeSlots] tile the window: every instant of the window
    lies in exactly one interval of the two lists, and no instant outside
    the window lies in any. *)
Theorem free_and_busy_tile_window
    (tz : Z) (slots : list FreeBusySlot) (items : list ScheduleItem)
    (dayStart dayEnd workStart workEnd : Z) :
  (forall s, In s slots -> isFree (slot_status s) = false ->
             slot_start s <= slot_end s) ->
  (forall it, In it items -> isFree (item_status it) = true ->
              dateTime (item_start it) <= dateTime (item_end it)) ->
  (forall t,
     windowStart tz dayStart workStart <= t < windowEnd tz dayStart workEnd ->
     (busyAt slots t <-> ~ freeAt items t)) ->
  let free := findFreeSlots tz slots dayStart dayEnd workStart workEnd in
  let busy := findBusyGaps tz items dayStart workStart workEnd in
  findBusyFromFreeSlots tz items dayStart workStart workEnd
    = map (renderGap tz) busy /\
  (forall t,
     windowStart tz dayStart workStart <= t < windowEnd tz dayStart workEnd ->
     exists i, (In i (free ++ busy) /\ within i t) /\
               forall j, In j (free ++ busy) /\ within j t -> j = i) /\
  (forall t, covers (free ++ busy) t ->
     windowStart tz dayStart workStart <= t < windowEnd tz dayStart workEnd).
Proof.
  intros Hb Hf Hcompl free busy.
  assert (OF : orderedFrom (windowStart tz dayStart workStart) free).
  { unfold free. rewrite findFreeSlots_gaps.
    apply sweep_ordered; [apply allMeet_filter|].
    intros i Hi. apply filter_In in Hi as [Hi _].
    apply -> sortByStart_In in Hi. unfold busyIntervals in Hi.
    apply in_map_iff in Hi as [s [<- Hs]].
    apply filter_In in Hs as [Hs Hn]. apply negb_true_iff in Hn.
    simpl. auto. }
  assert (OB : orderedFrom (windowStart tz dayStart workStart) busy).
  { unfold busy, findBusyGaps. rewrite freeIntervals_meetsWindow.
    apply sweep_ordered; [apply allMeet_sortByStart, allMeet_filter|].
    intros i Hi. apply -> sortByStart_In in Hi.
    apply filter_In in Hi as [Hi _].
    apply in_map_iff in Hi as [it [<- Hs]].
    apply filter_In in Hs as [Hs Hn]. simpl. auto. }
  assert (VF : forall t, covers free t <->
             (windowStart tz dayStart workStart <= t
                < windowEnd tz dayStart workEnd /\ ~ busyAt slots t))
    by (intros t; apply findFreeSlots_covers).
  assert (VB : forall t, covers busy t <->
             (windowStart tz dayStart workStart <= t
                < windowEnd tz dayStart workEnd /\ ~ freeAt items t))
    by (intros t; apply findBusyGaps_covers).
  split; [apply findBusyFromFreeSlots_gaps|]. split.
  - intros t Ht.
    assert (Hex : ~ (covers free t /\ covers busy t)).
    { rewrite VF, VB. intros [[_ H1] [_ H2]].
      apply H1. apply Hcompl; assumption. }
    assert (Hone : covers free t \/ covers busy t).
    { destruct (freeAt_dec items t) as [Fr|Fr].
      - left. apply VF. split; [exact Ht|].
        intros B. apply (Hcompl t Ht) in B. exact (B Fr).
      - right. apply VB. auto. }
    destruct Hone as [[i [Hi Wi]]|[i [Hi Wi]]]; exists i.
    + split; [split; [apply in_or_app; left; exact Hi | exact Wi]|].
      intros j [Hj Wj]. apply in_app_or in Hj as [Hj|Hj].
      * apply (orderedFrom_within_unique free t _ OF); assumption.
      * exfalso. apply Hex. split; [exists i | exists j]; auto.
    + split; [split; [apply in_or_app; right; exact Hi | exact Wi]|].
      intros j [Hj Wj]. apply in_app_or in Hj as [Hj|Hj].
      * exfalso. apply Hex. split; [exists j | exists i]; auto.
      * apply (orderedFrom_within_unique busy t _ OB); assumption.
  - intros t Hc. apply covers_app in Hc as [Hc|Hc].
    + apply VF in Hc. tauto.
    + apply VB in Hc. tauto.
Qed.

(** A dataset seen from both sides: busy 12:00-17:00, free 09:00-12:00. *)
Lemma afternoonBusy_complement (t : Z) :
  windowStart 0 jan1 9 <= t < windowEnd 0 jan1 17 ->
  (busyAt [mkSlot (clock jan1 12 0) (clock jan1 17 0) "Busy" None] t
   <-> ~ freeAt [mkItem "Free" (mkDateTimeTZ (clock jan1 9 0) "UTC")
                        (mkDateTimeTZ (clock jan1 12 0) "UTC") None] t).
Proof.
  replace (windowStart 0 jan1 9) with (clock jan1 9 0)
    by (vm_compute; reflexivity).
  replace (windowEnd 0 jan1 17) with (clock jan1 17 0)
    by (vm_compute; reflexivity).
  intros Ht. split.
  - intros [s [[<-|[]] [_ Hs]]] [it [[<-|[]] [_ Hi]]]. simpl in Hs, Hi. lia.
  - intros Hn.
    destruct (Z_lt_le_dec t (clock jan1 12 0)) as [Hlt|Hge].
    + exfalso. apply Hn. eexists. split; [left; reflexivity|].
      split; [reflexivity|]. simpl. lia.
    + eexists. split; [left; reflexivity|].
      split; [reflexivity|]. simpl. lia.
Defined.

Lemma free_and_busy_tile_window_witness :
  findBusyFromFreeSlots 0
    [mkItem "Free" (mkDateTimeTZ (clock jan1 9 0) "UTC")
            (mkDateTimeTZ (clock jan1 12 0) "UTC") None]
    jan1 9 17
  = map (renderGap 0)
        (findBusyGaps 0
           [mkItem "Free" (mkDateTimeTZ (clock jan1 9 0) "UTC")
                   (mkDateTimeTZ (clock jan1 12 0) "UTC") None]
           jan1 9 17).
Proof.
  apply (free_and_busy_tile_window 0
           [mkSlot (clock jan1 12 0) (clock jan1 17 0) "Busy" None]
           _ jan1 (jan1 + 86399999) 9 17).
  - intros s [<-|[]] _. simpl. unfold clock, msPerHour. lia.
  - intros it [<-|[]] _. simpl. unfold clock, msPerHour. lia.
  - exact afternoonBusy_complement.
Defined.

(** C5. For busy slots that lie inside the work window, sorted by start
    and pairwise disjoint, feeding the free slots of [findFreeSlots] back
    into [findBusyFromFreeSlots] as [Free] items gives busy gaps that
    cover exactly the instants the original slots cover; the gaps are
    canonical, so when the original slots are themselves canonical (no two
    of them touch) the gaps are the original intervals. *)
Theorem complement_round_trip
    (tz : Z) (slots : list FreeBusySlot)
    (dayStart dayEnd workStart workEnd : Z) :
  (forall s, In s slots ->
     isFree (slot_status s) = false /\
     windowStart tz dayStart workStart <= slot_start s /\
     slot_end s <= windowEnd tz dayStart workEnd) ->
  ascending (busyIntervals slots) ->
  nonOverlapping (busyIntervals slots) ->
  let free := findFreeSlots tz slots dayStart dayEnd workStart workEnd in
  let back :=
    findBusyGaps tz (map asFreeItem free) dayStart workStart workEnd in
  findBusyFromFreeSlots tz (map asFreeItem free) dayStart workStart workEnd
    = map (renderGap tz) back /\
  (forall t, covers back t <-> busyAt slots t) /\
  canonical back /\
  (canonical (busyIntervals slots) -> back = busyIntervals slots).
Proof.
  intros Hin _ _ free back.
  assert (VF : forall i, In i free -> start i < end_ i).
  { unfold free. rewrite findFreeSlots_gaps. apply gaps_nonempty. }
  assert (CB : canonical back).
  { apply findBusyGaps_canonical, wellFormedFree_asFreeItem; exact VF. }
  assert (Hcov : forall t, covers back t <-> busyAt slots t).
  { intros t. unfold back.
    rewrite findBusyGaps_covers, freeAt_asFreeItem.
    unfold free. rewrite findFreeSlots_covers.
    split.
    - intros [Ht Hn]. destruct (busyAt_dec slots t) as [B|B]; tauto.
    - intros B. split; [|tauto].
      destruct B as [s [Hs [_ Hw]]].
      destruct (Hin s Hs) as [_ [H1 H2]]. lia. }
  split; [apply findBusyFromFreeSlots_gaps|].
  split; [exact Hcov|]. split; [exact CB|].
  intros Hc. apply canonical_unique; try assumption.
  intros t. rewrite Hcov, busyIntervals_covers. tauto.
Qed.

Lemma complement_round_trip_witness :
  findBusyGaps 0
    (map asFreeItem
       (findFreeSlots 0
          [mkSlot (clock jan1 10 0) (clock jan1 10 30) "Busy" None;
           mkSlot (clock jan1 13 0) (clock jan1 14 0) "Tentative" None]
          jan1 (jan1 + 86399999) 9 17))
    jan1 9 17
  = busyIntervals
      [mkSlot (clock jan1 10 0) (clock jan1 10 30) "Busy" None;
       mkSlot (clock jan1 13 0) (clock jan1 14 0) "Tentative" None].
Proof.
  apply (complement_round_trip 0 _ jan1 (jan1 + 86399999) 9 17).
  - intros s [<-|[<-|[]]]; vm_compute; intuition discriminate.
  - unfold ascending. simpl.
    repeat (constructor; simpl);
      unfold clock, jan1, msPerHour, msPerMinute; lia.
  - unfold nonOverlapping. simpl.
    repeat (constructor; simpl);
      unfold overlaps, clock, jan1, msPerHour, msPerMinute; simpl; lia.
  - simpl. unfold clock, jan1, msPerHour, msPerMinute. lia.
Defined.

(** ** The availability-view decoder *)

Section Decoder.

Variables startDate intervalMinutes : Z.

Local Abbreviation bt := (bucketTime startDate intervalMinutes).
Local Abbreviation placeAt := (place startDate intervalMinutes).
Local Abbreviation placeOpenAt := (placeOpen startDate intervalMinutes).

Lemma bucketTime_next (i : Z) :
  startDate + i * intervalMinutes * 60000 + intervalMinutes * 60000
  = bt (i + 1).
Proof. unfold bucketTime. ring. Qed.

Lemma runs_cons (s : string) (l : list string) :
  exists n t, runs (s :: l) = (s, n) :: t.
Proof.
  simpl. destruct (runs l) as [|[s' n] t]; [eauto|].
  destruct (String.eqb s s'); eauto.
Qed.

Lemma place_free_bucket (s : string) (l : list string) (i : Z) :
  isFree s = true ->
  placeAt i (runs (s :: l)) = placeAt (i + 1) (runs l).
Proof.
  intros Hf. simpl. destruct (runs l) as [|[s' n] t]; simpl.
  - rewrite Hf. reflexivity.
  - destruct (String.eqb_spec s s') as [<-|Hne]; simpl; rewrite Hf; simpl.
    + f_equal. lia.
    + reflexivity.
Qed.

Lemma place_busy_bucket (s : string) (l : list string) (i : Z) :
  isFree s = false ->
  placeAt i (runs (s :: l))
  = placeOpenAt (mkBlock (bt i) (bt (i + 1)) s) (i + 1) (runs l).
Proof.
  intros Hf. simpl. destruct (runs l) as [|[s' n] t]; simpl.
  - rewrite Hf. reflexivity.
  - destruct (String.eqb_spec s s') as [<-|Hne]; simpl; rewrite Hf; simpl.
    + replace (i + (n + 1)) with (i + 1 + n) by lia. reflexivity.
    + reflexivity.
Qed.

Lemma placeOpen_free_bucket (cur : Block) (s : string) (l : list string)
    (i : Z) :
  isFree (blk_status cur) = false -> isFree s = true ->
  placeOpenAt cur i (runs (s :: l)) = cur :: placeAt (i + 1) (runs l).
Proof.
  intros Hc Hf. rewrite <- (place_free_bucket s l i Hf).
  destruct (runs_cons s l) as [n [t E]]. rewrite E. simpl.
  destruct (String.eqb_spec (blk_status cur) s) as [Heq|Hne];
    [congruence | reflexivity].
Qed.

Lemma placeOpen_same_bucket (cur : Block) (s : string) (l : list string)
    (i : Z) :
  blk_status cur = s ->
  placeOpenAt cur i (runs (s :: l))
  = placeOpenAt (mkBlock (blk_start cur) (bt (i + 1)) (blk_status cur))
                (i + 1) (runs l).
Proof.
  intros Hs. simpl. destruct (runs l) as [|[s' n] t]; simpl.
  - rewrite Hs, String.eqb_refl. reflexivity.
  - destruct (String.eqb_spec s s') as [<-|Hne]; simpl.
    + rewrite Hs, String.eqb_refl.
      replace (i + (n + 1)) with (i + 1 + n) by lia. reflexivity.
    + rewrite Hs, String.eqb_refl.
      destruct (String.eqb_spec s s'); [contradiction | reflexivity].
Qed.

Lemma placeOpen_other_bucket (cur : Block) (s : string) (l : list string)
    (i : Z) :
  blk_status cur <> s -> isFree s = false ->
  placeOpenAt cur i (runs (s :: l))
  = cur :: placeOpenAt (mkBlock (bt i) (bt (i + 1)) s) (i + 1) (runs l).
Proof.
  intros Hne Hf. rewrite <- (place_busy_bucket s l i Hf).
  destruct (runs_cons s l) as [n [t E]]. rewrite E. simpl.
  destruct (String.eqb_spec (blk_status cur) s);
    [contradiction | reflexivity].
Qed.

(** The decoder loop from bucket [i] on, flushed, lays out the runs of
    the remaining buckets after the blocks already emitted; an open run
    absorbs the first run when it has the same status. *)
Lemma parse_loop_runs (view : list ascii) :
  forall i blocks current,
    match current with
    | Some cur => isFree (blk_status cur) = false
    | None => True
    end ->
    flush (parse_loop startDate intervalMinutes view i (blocks, current))
    = blocks ++
      match current with
      | Some cur => placeOpenAt cur i (runs (map statusMap view))
      | None => placeAt i (runs (map statusMap view))
      end.
Proof.
  induction view as [|c r IH]; intros i blocks current Hinv.
  - simpl. destruct current; [reflexivity | rewrite app_nil_r; reflexivity].
  - cbn [parse_loop map]. unfold parse_step.
    destruct (isFree (statusMap c)) eqn:Hf.
    + destruct current as [cur|].
      * rewrite IH by exact I.
        rewrite placeOpen_free_bucket by assumption.
        rewrite <- app_assoc. reflexivity.
      * rewrite IH by exact I.
        rewrite place_free_bucket by assumption. reflexivity.
    + rewrite bucketTime_next.
      destruct current as [cur|].
      * destruct (String.eqb_spec (blk_status cur) (statusMap c))
          as [Heq|Hne].
        -- rewrite IH by exact Hinv.
           rewrite (placeOpen_same_bucket cur _ _ _ Heq). reflexivity.
        -- rewrite IH by exact Hf.
           rewrite placeOpen_other_bucket by assumption.
           rewrite <- app_assoc. reflexivity.
      * rewrite IH by exact Hf.
        rewrite place_busy_bucket by assumption. reflexivity.
Qed.

Lemma parseAvailabilityView_runs (view : string) :
  parseAvailabilityView view startDate intervalMinutes
  = placeAt 0 (runs (map statusMap (list_ascii_of_string view))).
Proof.
  unfold parseAvailabilityView.
  apply (parse_loop_runs (list_ascii_of_string view) 0 [] None I).
Qed.

Lemma place_trailing_bucket (n : nat) (c : ascii) (i : Z) :
  isFree (statusMap c) = false ->
  placeAt i (runs (map statusMap (repeat "0"%char n ++ [c])))
  = [mkBlock (bt (i + Z.of_nat n)) (bt (i + Z.of_nat n + 1)) (statusMap c)].
Proof.
  intros Hc. revert i. induction n as [|n IH]; intros i.
  - simpl. rewrite Hc. simpl.
    replace (i + 0) with i by lia. reflexivity.
  - cbn [repeat app map].
    rewrite place_free_bucket by reflexivity.
    rewrite IH.
    replace (i + Z.of_nat (S n)) with (i + 1 + Z.of_nat n) by lia.
    reflexivity.
Qed.

End Decoder.

(** [runs] is the run-length encoding of the status sequence: every run
    has at least one bucket, neighbouring runs differ in status, and
    expanding the runs gives the sequence back. *)
Lemma runs_positive (l : list string) :
  Forall (fun r => 1 <= snd r) (runs l).
Proof.
  induction l as [|s r IH]; simpl; [constructor|].
  destruct (runs r) as [|[s' n] t]; [repeat constructor; simpl; lia|].
  apply Forall_cons_iff in IH as [Hn Ht]. simpl in Hn.
  destruct (String.eqb s s'); repeat constructor; simpl; auto; lia.
Qed.

Lemma runs_distinct (l : list string) :
  Sorted (fun a b => fst a <> fst b) (runs l).
Proof.
  induction l as [|s r IH]; simpl; [constructor|].
  destruct (runs r) as [|[s' n] t]; [repeat constructor|].
  apply Sorted_inv in IH as [Ht Hh].
  destruct (String.eqb_spec s s') as [<-|Hne].
  - constructor; [exact Ht|]. destruct t; constructor.
    apply HdRel_inv in Hh. exact Hh.
  - constructor; [constructor; assumption|]. constructor. exact Hne.
Qed.

Lemma runs_expand (l : list string) :
  flat_map (fun r => repeat (fst r) (Z.to_nat (snd r))) (runs l) = l.
Proof.
  induction l as [|s r IH]; simpl; [reflexivity|].
  pose proof (runs_positive r) as Hp.
  destruct (runs r) as [|[s' n] t].
  - simpl in *. subst r. reflexivity.
  - apply Forall_cons_iff in Hp as [Hn _]. simpl in Hn.
    destruct (String.eqb_spec s s') as [<-|Hne].
    + cbn [flat_map fst snd] in *.
      replace (Z.to_nat (n + 1)) with (S (Z.to_nat n)) by lia.
      simpl. rewrite IH. reflexivity.
    + cbn [flat_map fst snd] in *. simpl. rewrite IH. reflexivity.
Qed.

(** C3. [parseAvailabilityView] lays out the run-length encoding of the
    decoded statuses: every maximal run of adjacent buckets of one status
    other than [Free] becomes one block from the start of its first bucket
    to the end of its last, [Free] runs produce nothing (a [Free] bucket
    closes the open run and starts none), neighbouring runs of different
    status stay separate blocks, and the last run is flushed.  The view
    [0022110] with 30-minute buckets from 2024-01-01T00:00 gives [Busy]
    01:00-02:00 and [Tentative] 02:00-03:00; the empty view gives no
    block; a view of [Free] buckets followed by one bucket of another
    status gives one block of exactly one bucket's width. *)
Theorem parseAvailabilityView_coalesces_runs
    (view : string) (startDate intervalMinutes : Z) :
  parseAvailabilityView view startDate intervalMinutes
  = place startDate intervalMinutes 0
          (runs (map statusMap (list_ascii_of_string view)))
  /\
  parseAvailabilityView "0022110" jan1 30
  = [mkBlock (clock jan1 1 0) (clock jan1 2 0) "Busy";
     mkBlock (clock jan1 2 0) (clock jan1 3 0) "Tentative"]
  /\
  parseAvailabilityView EmptyString startDate intervalMinutes = []
  /\
  (forall (n : nat) (c : ascii),
     isFree (statusMap c) = false ->
     parseAvailabilityView
       (string_of_list_ascii (repeat "0"%char n ++ [c]))
       startDate intervalMinutes
     = [mkBlock (startDate + Z.of_nat n * intervalMinutes * 60000)
                (startDate + Z.of_nat n * intervalMinutes * 60000
                 + intervalMinutes * 60000)
                (statusMap c)]).
Proof.
  split; [apply parseAvailabilityView_runs|].
  split; [vm_compute; reflexivity|].
  split; [reflexivity|].
  intros n c Hc. rewrite parseAvailabilityView_runs.
  rewrite list_ascii_of_string_of_list_ascii.
  rewrite place_trailing_bucket by exact Hc.
  rewrite <- bucketTime_next. reflexivity.
Qed.

Lemma parseAvailabilityView_coalesces_runs_witness :
  parseAvailabilityView
    (string_of_list_ascii (repeat "0"%char 3 ++ ["2"%char])) jan1 30
  = [mkBlock (jan1 + Z.of_nat 3 * 30 * 60000)
             (jan1 + Z.of_nat 3 * 30 * 60000 + 30 * 60000)
             (statusMap "2"%char)].
Proof.
  apply (parseAvailabilityView_coalesces_runs EmptyString jan1 30).
  reflexivity.
Defined.

(** ** Order and disjointness of the outputs *)

Lemma gaps_from_cursor (we : Z) (l : list Interval) :
  forall cur, Forall (fun g => cur <= start g) (gaps we l cur).
Proof.
  induction l as [|i r IH]; intros cur; simpl.
  - destruct (cur <? we); repeat constructor. simpl. lia.
  - rewrite !Z.gtb_ltb.
    apply Forall_app. split.
    + destruct (cur <? start i); repeat constructor. simpl. lia.
    + eapply Forall_impl; [|apply IH]. simpl. intros g Hg.
      destruct (Z.ltb_spec cur (end_ i)); lia.
Qed.

(** The cursor never moves back, so the gaps come out start-ascending
    whatever the intervals swept are. *)
Lemma gaps_ascending (we : Z) (l : list Interval) :
  forall cur, ascending (gaps we l cur).
Proof.
  unfold ascending.
  induction l as [|i r IH]; intros cur; simpl.
  - destruct (cur <? we); repeat constructor.
  - rewrite !Z.gtb_ltb.
    destruct (cur <? start i); simpl; [|apply IH].
    constructor; [apply IH|].
    eapply Forall_impl; [|apply gaps_from_cursor]. simpl. intros g Hg.
    destruct (Z.ltb_spec cur (end_ i)); lia.
Qed.

Lemma orderedFrom_weaken (a b : Z) (l : list Interval) :
  a <= b -> orderedFrom b l -> orderedFrom a l.
Proof. destruct l; simpl; [tauto|]. intros; intuition lia. Qed.

Lemma bucketTime_mono (startDate intervalMinutes i j : Z) :
  0 <= intervalMinutes -> i <= j ->
  bucketTime startDate intervalMinutes i
  <= bucketTime startDate intervalMinutes j.
Proof. unfold bucketTime. nia. Qed.

Lemma place_ordered (startDate intervalMinutes : Z)
    (rs : list (string * Z)) :
  0 <= intervalMinutes -> Forall (fun r => 1 <= snd r) rs ->
  forall i,
    orderedFrom (bucketTime startDate intervalMinutes i)
                (map blockInterval (place startDate intervalMinutes i rs)).
Proof.
  intros Hw. induction rs as [|[s n] t IH]; intros Hp i; simpl; [exact I|].
  apply Forall_cons_iff in Hp as [Hn Ht]. simpl in Hn.
  specialize (IH Ht (i + n)).
  assert (Hm : bucketTime startDate intervalMinutes i
               <= bucketTime startDate intervalMinutes (i + n))
    by (apply bucketTime_mono; lia).
  destruct (isFree s); simpl.
  - eapply orderedFrom_weaken; eauto.
  - repeat split; try lia. exact IH.
Qed.

(** C6. The lists returned by [findFreeSlots], [findBusyFromFreeSlots]
    (its gaps, before they are rendered as clock times) and
    [parseAvailabilityView] are sorted by start ascending and contain no
    two overlapping intervals, also when the input intervals overlap or
    are out of order.  The two sweeps are start-ascending on every input;
    they are free of overlaps when no input interval ends before it
    starts; the decoder is both for a bucket width that is not
    negative. *)
Theorem outputs_sorted_and_disjoint
    (tz : Z) (slots : list FreeBusySlot) (items : list ScheduleItem)
    (dayStart dayEnd workStart workEnd : Z)
    (view : string) (startDate intervalMinutes : Z) :
  let free := findFreeSlots tz slots dayStart dayEnd workStart workEnd in
  let busy := findBusyGaps tz items dayStart workStart workEnd in
  let blocks :=
    map blockInterval (parseAvailabilityView view startDate intervalMinutes) in
  findBusyFromFreeSlots tz items dayStart workStart workEnd
    = map (renderGap tz) busy /\
  ascending free /\
  ascending busy /\
  ((forall s, In s slots -> isFree (slot_status s) = false ->
              slot_start s <= slot_end s) ->
   nonOverlapping free) /\
  ((forall it, In it items -> isFree (item_status it) = true ->
               dateTime (item_start it) <= dateTime (item_end it)) ->
   nonOverlapping busy) /\
  (0 <= intervalMinutes -> ascending blocks /\ nonOverlapping blocks).
Proof.
  intros free busy blocks.
  split; [apply findBusyFromFreeSlots_gaps|].
  split; [unfold free; rewrite findFreeSlots_gaps; apply gaps_ascending|].
  split; [apply gaps_ascending|].
  split; [|split].
  - intros Hv. unfold free. rewrite findFreeSlots_gaps.
    eapply orderedFrom_sorted. apply sweep_ordered; [apply allMeet_filter|].
    intros i Hi. apply filter_In in Hi as [Hi _].
    apply -> sortByStart_In in Hi. unfold busyIntervals in Hi.
    apply in_map_iff in Hi as [s [<- Hs]].
    apply filter_In in Hs as [Hs Hf]. apply negb_true_iff in Hf.
    simpl. auto.
  - intros Hv. unfold busy, findBusyGaps.
    rewrite freeIntervals_meetsWindow.
    eapply orderedFrom_sorted.
    apply sweep_ordered; [apply allMeet_sortByStart, allMeet_filter|].
    intros i Hi. apply -> sortByStart_In in Hi.
    apply filter_In in Hi as [Hi _].
    apply in_map_iff in Hi as [it [<- Hs]].
    apply filter_In in Hs as [Hs Hf]. simpl. auto.
  - intros Hw. unfold blocks. rewrite parseAvailabilityView_runs.
    eapply orderedFrom_sorted.
    apply place_ordered; [exact Hw | apply runs_positive].
Qed.

Lemma outputs_sorted_and_disjoint_witness :
  nonOverlapping
    (findFreeSlots 0
       [mkSlot (clock jan1 13 0) (clock jan1 15 0) "Busy" None;
        mkSlot (clock jan1 10 0) (clock jan1 14 0) "Tentative" None]
       jan1 (jan1 + 86399999) 9 17) /\
  nonOverlapping
    (findBusyGaps 0
       [mkItem "Free" (mkDateTimeTZ (clock jan1 11 0) "UTC")
               (mkDateTimeTZ (clock jan1 16 0) "UTC") None;
        mkItem "Free" (mkDateTimeTZ (clock jan1 10 0) "UTC")
               (mkDateTimeTZ (clock jan1 12 0) "UTC") None]
       jan1 9 17) /\
  nonOverlapping
    (map blockInterval (parseAvailabilityView "0022110" jan1 30)).
Proof.
  pose proof (outputs_sorted_and_disjoint 0
    [mkSlot (clock jan1 13 0) (clock jan1 15 0) "Busy" None;
     mkSlot (clock jan1 10 0) (clock jan1 14 0) "Tentative" None]
    [mkItem "Free" (mkDateTimeTZ (clock jan1 11 0) "UTC")
            (mkDateTimeTZ (clock jan1 16 0) "UTC") None;
     mkItem "Free" (mkDateTimeTZ (clock jan1 10 0) "UTC")
            (mkDateTimeTZ (clock jan1 12 0) "UTC") None]
    jan1 (jan1 + 86399999) 9 17 "0022110" jan1 30)
    as [_ [_ [_ [Hf [Hb Hp]]]]].
  split; [|split].
  - apply Hf. intros s [<-|[<-|[]]] _; vm_compute; discriminate.
  - apply Hb. intros it [<-|[<-|[]]] _; vm_compute; discriminate.
  - apply Hp. lia.
Defined.

(** ** Duration rendering *)

(** C7. The duration of a free slot is [(end - start) / 60000] rounded to
    the nearest whole minute (a half rounds up).  With [h] whole hours and
    [m] remaining minutes it is rendered as [{h}h {m}m], without the
    minutes term when [m] is zero and without the hours term when [h] is
    zero, so a zero duration is [0m]; 90 minutes render as [1h 30m], 45
    minutes as [45m], 0 minutes as [0m]. *)
Theorem durationStr_format (slot : Interval) :
  start slot <= end_ slot ->
  let d := durationMinutes slot in
  let hours := d / 60 in
  let mins := d mod 60 in
  (2 * (end_ slot - start slot) - 60000 < 120000 * d
     <= 2 * (end_ slot - start slot) + 60000) /\
  0 <= hours /\ 0 <= mins < 60 /\ d = 60 * hours + mins /\
  (0 < hours -> 0 < mins ->
   durationStr slot = (showZ hours ++ "h " ++ showZ mins ++ "m")%string) /\
  (0 < hours -> mins = 0 ->
   durationStr slot = (showZ hours ++ "h")%string) /\
  (hours = 0 -> durationStr slot = (showZ mins ++ "m")%string) /\
  (d = 0 -> durationStr slot = "0m"%string) /\
  (forall s, durationStr (mkInterval s (s + 90 * 60000)) = "1h 30m"%string) /\
  (forall s, durationStr (mkInterval s (s + 45 * 60000)) = "45m"%string) /\
  (forall s, durationStr (mkInterval s s) = "0m"%string).
Proof.
  intros Hle d hours mins.
  assert (Hd : 0 <= d).
  { unfold d, durationMinutes, roundMinutes. apply Z.div_pos; lia. }
  assert (Hrem : Z.rem d 60 = mins)
    by (unfold mins; apply Z.rem_mod_nonneg; lia).
  assert (Hh : 0 <= hours) by (unfold hours; apply Z.div_pos; lia).
  assert (Hm : 0 <= mins < 60) by (unfold mins; apply Z.mod_pos_bound; lia).
  assert (Hdm : d = 60 * hours + mins)
    by (unfold hours, mins; apply Z.div_mod; lia).
  assert (Hstr : durationStr slot =
            if hours >? 0
            then (showZ hours ++ "h" ++
                  (if mins >? 0 then " " ++ showZ mins ++ "m" else EmptyString))%string
            else (showZ mins ++ "m")%string).
  { unfold durationStr. fold d. fold hours. rewrite Hrem. reflexivity. }
  assert (Hex : forall s k, s + k - s = k) by (intros; lia).
  split.
  { unfold d, durationMinutes, roundMinutes.
    pose proof (Z.div_mod (end_ slot - start slot + 30000) 60000).
    pose proof (Z.mod_pos_bound (end_ slot - start slot + 30000) 60000).
    lia. }
  split; [exact Hh|]. split; [exact Hm|]. split; [exact Hdm|].
  split; [|split; [|split; [|split; [|split; [|split]]]]].
  - intros H1 H2. rewrite Hstr.
    destruct (Z.gtb_spec hours 0); [|lia].
    destruct (Z.gtb_spec mins 0); [|lia]. reflexivity.
  - intros H1 H2. rewrite Hstr.
    destruct (Z.gtb_spec hours 0); [|lia].
    destruct (Z.gtb_spec mins 0); [lia|].
    reflexivity.
  - intros H1. rewrite Hstr.
    destruct (Z.gtb_spec hours 0); [lia|]. reflexivity.
  - intros H0. rewrite Hstr.
    assert (hours = 0) by lia. assert (mins = 0) by lia.
    destruct (Z.gtb_spec hours 0); [lia|].
    replace mins with 0 by lia. reflexivity.
  - intros s. unfold durationStr, durationMinutes. simpl.
    rewrite Hex. reflexivity.
  - intros s. unfold durationStr, durationMinutes. simpl.
    rewrite Hex. reflexivity.
  - intros s. unfold durationStr, durationMinutes. simpl.
    rewrite Z.sub_diag. reflexivity.
Qed.

Lemma durationStr_format_witness :
  durationStr (mkInterval (clock jan1 9 0) (clock jan1 10 30))
  = (showZ (durationMinutes
              (mkInterval (clock jan1 9 0) (clock jan1 10 30)) / 60)
     ++ "h " ++
     showZ (durationMinutes
              (mkInterval (clock jan1 9 0) (clock jan1 10 30)) mod 60)
     ++ "m")%string.
Proof.
  apply (durationStr_format (mkInterval (clock jan1 9 0) (clock jan1 10 30)));
    vm_compute; congruence.
Defined.

(** ** Day range *)

Lemma startOfLocalDay_spec (tz t : Z) :
  (startOfLocalDay tz t + tz) mod msPerDay = 0 /\
  startOfLocalDay tz t <= t < startOfLocalDay tz t + msPerDay.
Proof.
  unfold startOfLocalDay.
  pose proof (Z.mod_pos_bound (t + tz) msPerDay eq_refl) as Hb.
  split; [|lia].
  replace (t - (t + tz) mod msPerDay + tz)
    with ((t + tz) - (t + tz) mod msPerDay) by lia.
  rewrite Zminus_mod_idemp_r, Z.sub_diag. reflexivity.
Qed.

(** C8. A day argument that is neither [today] nor [tomorrow] in any
    letter case and that does not parse as a date makes [getDateRange]
    fall back to today: it returns what it returns for [today], the range
    from 00:00:00.000 to 23:59:59.999 of the local day that contains the
    current instant. *)
Theorem getDateRange_falls_back_to_today
    (tz now : Z) (parseDate : string -> option Z) (day : string) :
  toLowerCase day <> "today"%string ->
  toLowerCase day <> "tomorrow"%string ->
  parseDate day = None ->
  let range := getDateRange tz now parseDate day in
  range = getDateRange tz now parseDate "today" /\
  start range = startOfLocalDay tz now /\
  end_ range = startOfLocalDay tz now + (msPerDay - 1) /\
  (start range + tz) mod msPerDay = 0 /\
  start range <= now <= end_ range.
Proof.
  intros H1 H2 Hp range.
  assert (Ht : targetDate now parseDate day = now).
  { unfold targetDate.
    destruct (String.eqb_spec (toLowerCase day) "today"); [contradiction|].
    destruct (String.eqb_spec (toLowerCase day) "tomorrow");
      [contradiction|].
    rewrite Hp. reflexivity. }
  assert (Hr : range = mkInterval (setHours tz now 0 0 0 0)
                                  (setHours tz now 23 59 59 999)).
  { unfold range, getDateRange. rewrite Ht. reflexivity. }
  destruct (startOfLocalDay_spec tz now) as [Hm Hb].
  split; [rewrite Hr; reflexivity|].
  rewrite Hr. simpl. unfold setHours, msPerHour, msPerMinute, msPerDay in *.
  repeat split; try lia.
  replace (startOfLocalDay tz now + 0 * 3600000 + 0 * 60000 + 0 * 1000 + 0)
    with (startOfLocalDay tz now) by lia.
  exact Hm.
Qed.

Lemma getDateRange_falls_back_to_today_witness :
  getDateRange 0 (clock jan1 15 42) (fun _ => None) "next friday"
  = getDateRange 0 (clock jan1 15 42) (fun _ => None) "today".
Proof.
  apply (getDateRange_falls_back_to_today 0 (clock jan1 15 42)
           (fun _ => None) "next friday").
  - simpl. discriminate.
  - simpl. discriminate.
  - reflexivity.
Defined.

(** * Further properties of the code *)

(** ** The two sweeps: empty results, inputs that do not matter *)

Lemma findFreeSlots_nonempty_slots (tz : Z) (slots : list FreeBusySlot)
    (dayStart dayEnd workStart workEnd : Z) (g : Interval) :
  In g (findFreeSlots tz slots dayStart dayEnd workStart workEnd) ->
  start g < end_ g.
Proof. rewrite findFreeSlots_gaps. apply gaps_nonempty. Qed.

Lemma findBusyGaps_nonempty (tz : Z) (items : list ScheduleItem)
    (dayStart workStart workEnd : Z) (g : Interval) :
  In g (findBusyGaps tz items dayStart workStart workEnd) ->
  start g < end_ g.
Proof. unfold findBusyGaps. apply gaps_nonempty. Qed.

Lemma covers_first (i : Interval) (r : list Interval) :
  start i < end_ i -> covers (i :: r) (start i).
Proof. intros H. exists i. split; [left; reflexivity | unfold within; lia]. Qed.

(** X1. [findFreeSlots] returns the empty list, the case reported as no
    free time during working hours, exactly when every instant of the
    work window lies in some slot of status other than [Free]. *)
Theorem findFreeSlots_empty_iff_window_busy
    (tz : Z) (slots : list FreeBusySlot)
    (dayStart dayEnd workStart workEnd : Z) :
  findFreeSlots tz slots dayStart dayEnd workStart workEnd = [] <->
  (forall t,
     windowStart tz dayStart workStart <= t < windowEnd tz dayStart workEnd ->
     busyAt slots t).
Proof.
  split.
  - intros He t Ht. destruct (busyAt_dec slots t) as [B|B]; [exact B|].
    exfalso. apply (covers_nil t). rewrite <- He.
    apply findFreeSlots_covers. auto.
  - intros Hall.
    destruct (findFreeSlots tz slots dayStart dayEnd workStart workEnd)
      as [|i r] eqn:E; [reflexivity|]. exfalso.
    assert (Hi : start i < end_ i).
    { apply (findFreeSlots_nonempty_slots tz slots dayStart dayEnd
               workStart workEnd). rewrite E. left. reflexivity. }
    pose proof (covers_first i r Hi) as Hc. rewrite <- E in Hc.
    apply findFreeSlots_covers in Hc as [Ht Hn]. apply Hn, Hall, Ht.
Qed.

Lemma findBusyFromFreeSlots_nil_iff
    (tz : Z) (items : list ScheduleItem) (dayStart workStart workEnd : Z) :
  findBusyFromFreeSlots tz items dayStart workStart workEnd = [] <->
  (forall t,
     windowStart tz dayStart workStart <= t < windowEnd tz dayStart workEnd ->
     freeAt items t).
Proof.
  rewrite findBusyFromFreeSlots_gaps. split.
  - intros He t Ht. apply map_eq_nil in He.
    destruct (freeAt_dec items t) as [F|F]; [exact F|].
    exfalso. apply (covers_nil t). rewrite <- He.
    apply findBusyGaps_covers. auto.
  - intros Hall.
    destruct (findBusyGaps tz items dayStart workStart workEnd)
      as [|i r] eqn:E; [reflexivity|]. exfalso.
    assert (Hi : start i < end_ i).
    { apply (findBusyGaps_nonempty tz items dayStart workStart workEnd).
      rewrite E. left. reflexivity. }
    pose proof (covers_first i r Hi) as Hc. rewrite <- E in Hc.
    apply findBusyGaps_covers in Hc as [Ht Hn]. apply Hn, Hall, Ht.
Qed.

(** X2. [findBusyFromFreeSlots] returns the empty list, the case reported
    as free during working hours, exactly when every instant of the work
    window lies in some item of status [Free]. *)
Theorem findBusyFromFreeSlots_empty_iff_window_free
    (tz : Z) (items : list ScheduleItem) (dayStart workStart workEnd : Z) :
  findBusyFromFreeSlots tz items dayStart workStart workEnd = [] <->
  (forall t,
     windowStart tz dayStart workStart <= t < windowEnd tz dayStart workEnd ->
     freeAt items t).
Proof. apply findBusyFromFreeSlots_nil_iff. Qed.

(** X3. On slots with [start < end], the free slots depend only on which
    instants of the work window are busy: two slot lists that make the
    same instants busy give the same free slots, so the order of the
    slots, repeated slots and one meeting split into adjoining parts make
    no difference. *)
Theorem findFreeSlots_depends_on_busy_instants
    (tz : Z) (a b : list FreeBusySlot)
    (dayStart dayEnd workStart workEnd : Z) :
  wellFormedBusy a -> wellFormedBusy b ->
  (forall t,
     windowStart tz dayStart workStart <= t < windowEnd tz dayStart workEnd ->
     (busyAt a t <-> busyAt b t)) ->
  findFreeSlots tz a dayStart dayEnd workStart workEnd =
  findFreeSlots tz b dayStart dayEnd workStart workEnd.
Proof.
  intros Ha Hb Hsame. apply canonical_unique.
  - apply findFreeSlots_canonical; exact Ha.
  - apply findFreeSlots_canonical; exact Hb.
  - intros t. rewrite !findFreeSlots_covers.
    split; intros [Ht Hn]; (split; [exact Ht|]); intros B; apply Hn;
      apply (Hsame t Ht); exact B.
Qed.

Lemma findFreeSlots_depends_on_busy_instants_witness :
  findFreeSlots 0
    [mkSlot (clock jan1 11 0) (clock jan1 12 0) "Busy" None;
     mkSlot (clock jan1 10 0) (clock jan1 11 0) "Tentative" None]
    jan1 (jan1 + 86399999) 9 17 =
  findFreeSlots 0
    [mkSlot (clock jan1 10 0) (clock jan1 12 0) "Busy" None]
    jan1 (jan1 + 86399999) 9 17.
Proof.
  apply findFreeSlots_depends_on_busy_instants.
  - intros s [<-|[<-|[]]] _; reflexivity.
  - intros s [<-|[]] _; reflexivity.
  - intros t _. split.
    + intros [s [[<-|[<-|[]]] [_ Hs]]]; simpl in Hs;
        (eexists; split; [left; reflexivity|]; split; [reflexivity|]);
        simpl; unfold clock, msPerHour, msPerMinute in *; lia.
    + intros [s [[<-|[]] [_ Hs]]]. simpl in Hs.
      destruct (Z_lt_le_dec t (clock jan1 11 0)).
      * exists (mkSlot (clock jan1 10 0) (clock jan1 11 0) "Tentative" None).
        split; [right; left; reflexivity|]. split; [reflexivity|].
        simpl. lia.
      * exists (mkSlot (clock jan1 11 0) (clock jan1 12 0) "Busy" None).
        split; [left; reflexivity|]. split; [reflexivity|].
        simpl. lia.
Defined.

(** X4. On free items with [start < end], the busy summary depends only
    on which instants of the work window are free: two item lists that
    make the same instants free give the same output. *)
Theorem findBusyFromFreeSlots_depends_on_free_instants
    (tz : Z) (a b : list ScheduleItem) (dayStart workStart workEnd : Z) :
  wellFormedFree a -> wellFormedFree b ->
  (forall t,
     windowStart tz dayStart workStart <= t < windowEnd tz dayStart workEnd ->
     (freeAt a t <-> freeAt b t)) ->
  findBusyFromFreeSlots tz a dayStart workStart workEnd =
  findBusyFromFreeSlots tz b dayStart workStart workEnd.
Proof.
  intros Ha Hb Hsame. rewrite !findBusyFromFreeSlots_gaps. f_equal.
  apply canonical_unique.
  - apply findBusyGaps_canonical; exact Ha.
  - apply findBusyGaps_canonical; exact Hb.
  - intros t. rewrite !findBusyGaps_covers.
    split; intros [Ht Hn]; (split; [exact Ht|]); intros B; apply Hn;
      apply (Hsame t Ht); exact B.
Qed.

Lemma findBusyFromFreeSlots_depends_on_free_instants_witness :
  findBusyFromFreeSlots 0
    [mkItem "Free" (mkDateTimeTZ (clock jan1 9 0) "UTC")
            (mkDateTimeTZ (clock jan1 12 0) "UTC") None;
     mkItem "Free" (mkDateTimeTZ (clock jan1 9 0) "UTC")
            (mkDateTimeTZ (clock jan1 12 0) "UTC") None]
    jan1 9 17 =
  findBusyFromFreeSlots 0
    [mkItem "Free" (mkDateTimeTZ (clock jan1 9 0) "UTC")
            (mkDateTimeTZ (clock jan1 12 0) "UTC") None]
    jan1 9 17.
Proof.
  apply findBusyFromFreeSlots_depends_on_free_instants.
  - intros it [<-|[<-|[]]] _; reflexivity.
  - intros it [<-|[]] _; reflexivity.
  - intros t _. split.
    + intros [it [[<-|[<-|[]]] Hit]]; eexists;
        (split; [left; reflexivity | exact Hit]).
    + intros [it [[<-|[]] Hit]]. eexists.
      split; [left; reflexivity | exact Hit].
Defined.

(** X5. More busy slots never give more free time, and more free items
    never give more busy time: an instant inside a free slot computed
    from a longer slot list is inside a free slot computed without the
    added slots, and likewise for the busy gaps. *)
Theorem sweeps_are_antitone
    (tz : Z) (dayStart dayEnd workStart workEnd : Z) :
  (forall (added slots : list FreeBusySlot) t,
     covers (findFreeSlots tz (added ++ slots) dayStart dayEnd
                           workStart workEnd) t ->
     covers (findFreeSlots tz slots dayStart dayEnd workStart workEnd) t) /\
  (forall (added items : list ScheduleItem) t,
     covers (findBusyGaps tz (added ++ items) dayStart workStart workEnd) t ->
     covers (findBusyGaps tz items dayStart workStart workEnd) t) /\
  (forall items : list ScheduleItem,
     findBusyFromFreeSlots tz items dayStart workStart workEnd =
     map (renderGap tz) (findBusyGaps tz items dayStart workStart workEnd)).
Proof.
  split; [|split].
  - intros added slots t. rewrite !findFreeSlots_covers.
    intros [Ht Hn]. split; [exact Ht|]. intros [s [Hs Hb]]. apply Hn.
    exists s. split; [apply in_or_app; right; exact Hs | exact Hb].
  - intros added items t. rewrite !findBusyGaps_covers.
    intros [Ht Hn]. split; [exact Ht|]. intros [s [Hs Hb]]. apply Hn.
    exists s. split; [apply in_or_app; right; exact Hs | exact Hb].
  - intros items. apply findBusyFromFreeSlots_gaps.
Qed.

Lemma sweeps_are_antitone_witness :
  covers
    (findFreeSlots 0
       [mkSlot (clock jan1 13 0) (clock jan1 14 0) "Busy" None]
       jan1 (jan1 + 86399999) 9 17)
    (clock jan1 9 30).
Proof.
  apply (proj1 (sweeps_are_antitone 0 jan1 (jan1 + 86399999) 9 17)
           [mkSlot (clock jan1 10 0) (clock jan1 11 0) "Busy" None]).
  exists (mkInterval (clock jan1 9 0) (clock jan1 10 0)). split.
  - vm_compute. left. reflexivity.
  - unfold within, clock, msPerHour, msPerMinute. simpl. lia.
Defined.

Lemma filter_none {A : Type} (p : A -> bool) (l : list A) :
  (forall x, In x l -> p x = false) -> filter p l = [].
Proof.
  induction l as [|x r IH]; intros H; simpl; [reflexivity|].
  rewrite (H x (or_introl eq_refl)).
  apply IH. intros y Hy. apply H. right. exact Hy.
Qed.

(** X6. When no schedule item has the status [Free] (in particular for
    the empty list, or a list of busy-labelled items) and the start of
    the work window is before its end, [findBusyFromFreeSlots] reports
    the whole work window as one [Busy] entry from the window start to
    the window end. *)
Theorem findBusyFromFreeSlots_without_free_items
    (tz : Z) (items : list ScheduleItem) (dayStart workStart workEnd : Z) :
  windowStart tz dayStart workStart < windowEnd tz dayStart workEnd ->
  (forall it, In it items -> isFree (item_status it) = false) ->
  findBusyFromFreeSlots tz items dayStart workStart workEnd =
  [mkBusy (formatTime tz (windowStart tz dayStart workStart))
          (formatTime tz (windowEnd tz dayStart workEnd)) "Busy"].
Proof.
  intros Hw Hnone.
  unfold windowStart, windowEnd in *.
  unfold findBusyFromFreeSlots, freeIntervals.
  rewrite (filter_none _ items Hnone). simpl.
  destruct (Z.ltb_spec (setHours tz dayStart workStart 0 0 0)
                       (setHours tz dayStart workEnd 0 0 0)); [|lia].
  reflexivity.
Qed.

Lemma findBusyFromFreeSlots_without_free_items_witness :
  findBusyFromFreeSlots 0
    [mkItem "busy" (mkDateTimeTZ (clock jan1 10 0) "UTC")
            (mkDateTimeTZ (clock jan1 11 0) "UTC") None]
    jan1 9 17 =
  [mkBusy (formatTime 0 (windowStart 0 jan1 9))
          (formatTime 0 (windowEnd 0 jan1 17)) "Busy"].
Proof.
  apply findBusyFromFreeSlots_without_free_items.
  - vm_compute. reflexivity.
  - intros it [<-|[]]. reflexivity.
Defined.

(** X7. When every slot has the status [Free] (in particular for the
    empty list) and the start of the work window is before its end,
    [findFreeSlots] returns the whole work window as its single free
    slot. *)
Theorem findFreeSlots_without_busy_slots
    (tz : Z) (slots : list FreeBusySlot)
    (dayStart dayEnd workStart workEnd : Z) :
  windowStart tz dayStart workStart < windowEnd tz dayStart workEnd ->
  (forall s, In s slots -> isFree (slot_status s) = true) ->
  findFreeSlots tz slots dayStart dayEnd workStart workEnd =
  [mkInterval (windowStart tz dayStart workStart)
              (windowEnd tz dayStart workEnd)].
Proof.
  intros Hw Hall.
  unfold windowStart, windowEnd in *.
  unfold findFreeSlots, busyIntervals.
  rewrite (filter_none (fun s => negb (isFree (slot_status s))) slots).
  - simpl.
    destruct (Z.ltb_spec (setHours tz dayStart workStart 0 0 0)
                         (setHours tz dayStart workEnd 0 0 0)); [|lia].
    reflexivity.
  - intros s Hs. rewrite (Hall s Hs). reflexivity.
Qed.

Lemma findFreeSlots_without_busy_slots_witness :
  findFreeSlots 0
    [mkSlot (clock jan1 10 0) (clock jan1 11 0) "Free" None]
    jan1 (jan1 + 86399999) 9 17 =
  [mkInterval (windowStart 0 jan1 9) (windowEnd 0 jan1 17)].
Proof.
  apply findFreeSlots_without_busy_slots.
  - vm_compute. reflexivity.
  - intros s [<-|[]]. reflexivity.
Defined.

Lemma orderedFrom_totalLength (e : Z) (l : list Interval) :
  (forall g, In g l -> end_ g <= e) ->
  forall b, b <= e -> orderedFrom b l -> totalLength l <= e - b.
Proof.
  induction l as [|i r IH]; intros He b Hb Ho; simpl in *; [lia|].
  destruct Ho as [H1 [H2 H3]].
  pose proof (He i (or_introl eq_refl)) as Hi.
  specialize (IH (fun g Hg => He g (or_intror Hg)) (end_ i) Hi H3). lia.
Qed.

(** X8. Every free slot [findFreeSlots] returns is non-empty and lies
    inside the work window, on every input.  When no busy slot ends
    before it starts, the free slots together are no longer than the work
    window. *)
Theorem findFreeSlots_within_window
    (tz : Z) (slots : list FreeBusySlot)
    (dayStart dayEnd workStart workEnd : Z) :
  let out := findFreeSlots tz slots dayStart dayEnd workStart workEnd in
  let ws := windowStart tz dayStart workStart in
  let we := windowEnd tz dayStart workEnd in
  (forall g, In g out -> ws <= start g /\ start g < end_ g /\ end_ g <= we) /\
  ((forall s, In s slots -> isFree (slot_status s) = false ->
              slot_start s <= slot_end s) ->
   totalLength out <= Z.max 0 (we - ws)).
Proof.
  intros out ws we.
  assert (Hin : forall g, In g out ->
                          ws <= start g /\ start g < end_ g /\ end_ g <= we).
  { intros g Hg.
    assert (Hne : start g < end_ g)
      by (apply (findFreeSlots_nonempty_slots tz slots dayStart dayEnd
                   workStart workEnd); exact Hg).
    assert (H1 : covers out (start g))
      by (exists g; split; [exact Hg | unfold within; lia]).
    assert (H2 : covers out (end_ g - 1))
      by (exists g; split; [exact Hg | unfold within; lia]).
    apply findFreeSlots_covers in H1 as [H1 _].
    apply findFreeSlots_covers in H2 as [H2 _].
    fold ws we in H1, H2. lia. }
  split; [exact Hin|].
  intros Hv.
  destruct out as [|i r] eqn:E; [simpl; lia|].
  destruct (Hin i (or_introl eq_refl)) as [Hi1 [Hi2 Hi3]].
  rewrite <- E in *.
  assert (Ho : orderedFrom ws out).
  { unfold out, ws. rewrite findFreeSlots_gaps.
    apply sweep_ordered; [apply allMeet_filter|].
    intros j Hj. apply filter_In in Hj as [Hj _].
    apply -> sortByStart_In in Hj. unfold busyIntervals in Hj.
    apply in_map_iff in Hj as [s [<- Hs]].
    apply filter_In in Hs as [Hs Hf]. apply negb_true_iff in Hf.
    simpl. auto. }
  assert (ws <= we) by lia.
  pose proof (orderedFrom_totalLength we out
                (fun g Hg => proj2 (proj2 (Hin g Hg))) ws H Ho).
  lia.
Qed.

Lemma findFreeSlots_within_window_witness :
  totalLength
    (findFreeSlots 0
       [mkSlot (clock jan1 13 0) (clock jan1 15 0) "Busy" None;
        mkSlot (clock jan1 10 0) (clock jan1 14 0) "Tentative" None]
       jan1 (jan1 + 86399999) 9 17)
  <= Z.max 0 (windowEnd 0 jan1 17 - windowStart 0 jan1 9).
Proof.
  apply (findFreeSlots_within_window 0 _ jan1 (jan1 + 86399999) 9 17).
  intros s [<-|[<-|[]]] _; vm_compute; discriminate.
Defined.

(** ** Clock times and day ranges *)

Lemma startOfLocalDay_multiple (tz t : Z) :
  exists q, startOfLocalDay tz t + tz = msPerDay * q.
Proof.
  exists ((t + tz) / msPerDay). unfold startOfLocalDay.
  pose proof (Z.div_mod (t + tz) msPerDay). unfold msPerDay in *. lia.
Qed.

Lemma startOfLocalDay_shift (tz t n : Z) :
  startOfLocalDay tz (t + n * msPerDay) = startOfLocalDay tz t + n * msPerDay.
Proof.
  unfold startOfLocalDay.
  replace (t + n * msPerDay + tz) with (t + tz + n * msPerDay) by lia.
  rewrite Z.mod_add by (unfold msPerDay; lia). lia.
Qed.

(** X9. [formatTime] reads back the wall-clock hour and minute that
    [setHours] set, whatever the seconds and milliseconds are: for an
    hour from 1 to 23 and a minute from 0 to 59 the rendering is the two
    digits of the hour, a colon and the two digits of the minute. *)
Theorem formatTime_setHours (tz t hh mm ss ms : Z) :
  1 <= hh <= 23 -> 0 <= mm <= 59 -> 0 <= ss <= 59 -> 0 <= ms <= 999 ->
  formatTime tz (setHours tz t hh mm ss ms)
  = (twoDigits hh ++ ":" ++ twoDigits mm)%string.
Proof.
  intros Hh Hm Hs Hms. unfold formatTime, setHours.
  destruct (startOfLocalDay_multiple tz t) as [q Hq].
  set (r := hh * msPerHour + mm * msPerMinute + ss * 1000 + ms).
  assert (Hr : 0 <= r < msPerDay)
    by (unfold r, msPerHour, msPerMinute, msPerDay; lia).
  replace (startOfLocalDay tz t + hh * msPerHour + mm * msPerMinute
           + ss * 1000 + ms + tz)
    with (r + q * msPerDay) by (unfold r; lia).
  rewrite Z.mod_add by (unfold msPerDay; lia).
  rewrite (Z.mod_small r msPerDay Hr).
  assert (H1 : r / msPerHour = hh).
  { symmetry. apply (Z.div_unique r msPerHour hh (mm * msPerMinute + ss * 1000 + ms));
      unfold r, msPerHour, msPerMinute; lia. }
  assert (H2 : r mod msPerHour = mm * msPerMinute + ss * 1000 + ms).
  { symmetry. apply (Z.mod_unique r msPerHour hh);
      unfold r, msPerHour, msPerMinute; lia. }
  assert (H3 : (mm * msPerMinute + ss * 1000 + ms) / msPerMinute = mm).
  { symmetry. apply (Z.div_unique _ msPerMinute mm (ss * 1000 + ms));
      unfold msPerMinute; lia. }
  rewrite H1, H2, H3. reflexivity.
Qed.

Lemma formatTime_setHours_witness :
  formatTime 3600000 (setHours 3600000 (clock jan1 15 42) 9 5 30 250)
  = "09:05"%string.
Proof.
  change "09:05"%string with (twoDigits 9 ++ ":" ++ twoDigits 5)%string.
  apply formatTime_setHours; lia.
Defined.

(** X10. For the day [tomorrow], in any letter case, [getDateRange]
    returns the range of today moved forward by exactly one day. *)
Theorem getDateRange_tomorrow
    (tz now : Z) (parseDate : string -> option Z) (day : string) :
  toLowerCase day = "tomorrow"%string ->
  let today := getDateRange tz now parseDate "today" in
  getDateRange tz now parseDate day
  = mkInterval (start today + msPerDay) (end_ today + msPerDay).
Proof.
  intros Hd today. unfold today, getDateRange, targetDate.
  rewrite Hd.
  change (String.eqb "tomorrow" "today") with false.
  change (String.eqb "tomorrow" "tomorrow") with true.
  change (String.eqb (toLowerCase "today") "today") with true.
  unfold setHours, addDays. cbn [start end_ negb].
  rewrite startOfLocalDay_shift. f_equal; lia.
Qed.

Lemma getDateRange_tomorrow_witness :
  getDateRange 0 (clock jan1 15 42) (fun _ => None) "ToMorrow"
  = mkInterval
      (start (getDateRange 0 (clock jan1 15 42) (fun _ => None) "today")
       + msPerDay)
      (end_ (getDateRange 0 (clock jan1 15 42) (fun _ => None) "today")
       + msPerDay).
Proof. apply getDateRange_tomorrow. reflexivity. Defined.

(** X11. The delete-event command and the free/busy command read the day
    argument alike, except for [yesterday]: on every other day string the
    two day ranges are equal; for [yesterday], in any letter case, the
    delete-event range is the range of today moved back by exactly one
    day, while the free/busy command, which has no such keyword, treats
    the string as a date and falls back to today when it does not
    parse. *)
Theorem eventDayRange_vs_getDateRange
    (tz now : Z) (parseDate : string -> option Z) (day : string) :
  (toLowerCase day <> "yesterday"%string ->
   eventDayRange tz now parseDate day = getDateRange tz now parseDate day) /\
  (toLowerCase day = "yesterday"%string ->
   let today := getDateRange tz now parseDate "today" in
   eventDayRange tz now parseDate day
   = mkInterval (start today - msPerDay) (end_ today - msPerDay) /\
   (parseDate day = None -> getDateRange tz now parseDate day = today)).
Proof.
  split.
  - intros Hne. unfold eventDayRange, getDateRange, parseDay, targetDate.
    destruct (String.eqb (toLowerCase day) "today"); [reflexivity|].
    destruct (String.eqb (toLowerCase day) "tomorrow"); [reflexivity|].
    destruct (String.eqb_spec (toLowerCase day) "yesterday");
      [contradiction | reflexivity].
  - intros Hy today. split.
    + unfold today, eventDayRange, getDateRange, parseDay, targetDate.
      rewrite Hy.
      change (String.eqb "yesterday" "today") with false.
      change (String.eqb "yesterday" "tomorrow") with false.
      change (String.eqb "yesterday" "yesterday") with true.
      change (String.eqb (toLowerCase "today") "today") with true.
      unfold setHours, addDays. cbn [start end_].
      rewrite startOfLocalDay_shift. f_equal; lia.
    + intros Hp. unfold today, getDateRange, targetDate.
      rewrite Hy, Hp.
      change (String.eqb "yesterday" "today") with false.
      change (String.eqb "yesterday" "tomorrow") with false.
      reflexivity.
Qed.

Lemma eventDayRange_vs_getDateRange_witness :
  eventDayRange 0 (clock jan1 15 42) (fun _ => None) "Yesterday"
  = mkInterval
      (start (getDateRange 0 (clock jan1 15 42) (fun _ => None) "today")
       - msPerDay)
      (end_ (getDateRange 0 (clock jan1 15 42) (fun _ => None) "today")
       - msPerDay).
Proof.
  apply (eventDayRange_vs_getDateRange 0 (clock jan1 15 42) (fun _ => None)
           "Yesterday").
  reflexivity.
Defined.

(** ** The decoder: empty results, statuses, lengths *)

Lemma statusMap_free (c : ascii) :
  isFree (statusMap c) = Ascii.eqb c "0".
Proof.
  unfold statusMap.
  destruct (Ascii.eqb c "0"); [reflexivity|].
  destruct (Ascii.eqb c "1"); [reflexivity|].
  destruct (Ascii.eqb c "2"); [reflexivity|].
  destruct (Ascii.eqb c "3"); [reflexivity|].
  destruct (Ascii.eqb c "4"); reflexivity.
Qed.

Lemma place_runs_nil (startDate intervalMinutes : Z) (l : list string) :
  forall i,
    place startDate intervalMinutes i (runs l) = [] <->
    (forall s, In s l -> isFree s = true).
Proof.
  induction l as [|s r IH]; intros i.
  - simpl. split; [intros _ s [] | reflexivity].
  - destruct (isFree s) eqn:Hs.
    + rewrite place_free_bucket by exact Hs. rewrite IH. split.
      * intros H x [<-|Hx]; auto.
      * intros H x Hx. apply H. right. exact Hx.
    + rewrite place_busy_bucket by exact Hs. split.
      * intros H. exfalso. unfold placeOpen in H.
        destruct (runs r) as [|[s' n] t]; [discriminate|].
        destruct (String.eqb _ s'); discriminate.
      * intros H. specialize (H s (or_introl eq_refl)). congruence.
Qed.

Lemma parseAvailabilityView_nil_iff
    (view : string) (startDate intervalMinutes : Z) :
  parseAvailabilityView view startDate intervalMinutes = [] <->
  (forall c, In c (list_ascii_of_string view) -> c = "0"%char).
Proof.
  rewrite parseAvailabilityView_runs, place_runs_nil. split.
  - intros H c Hc. apply Ascii.eqb_eq. rewrite <- statusMap_free.
    apply H. apply in_map. exact Hc.
  - intros H s Hs. apply in_map_iff in Hs as [c [<- Hc]].
    rewrite statusMap_free. apply Ascii.eqb_eq. auto.
Qed.

(** X12. [parseAvailabilityView] returns no block, the case reported as
    free all day, exactly when every bucket of the view has the code
    [0]; one bucket of any other code, recognised or not, gives at least
    one block. *)
Theorem parseAvailabilityView_empty_iff_all_free
    (view : string) (startDate intervalMinutes : Z) :
  parseAvailabilityView view startDate intervalMinutes = [] <->
  (forall c, In c (list_ascii_of_string view) -> c = "0"%char).
Proof. apply parseAvailabilityView_nil_iff. Qed.

Lemma runs_In (l : list string) (s : string) (n : Z) :
  In (s, n) (runs l) -> In s l.
Proof.
  revert s n. induction l as [|x r IH]; intros s n; simpl; [tauto|].
  destruct (runs r) as [|[s' k] t].
  - intros [E|[]]. left. congruence.
  - destruct (String.eqb_spec x s') as [<-|Hne].
    + intros [E|Ht]; [left; congruence|].
      right. apply (IH s n). right. exact Ht.
    + intros [E|Ht]; [left; congruence|].
      right. apply (IH s n). exact Ht.
Qed.

Lemma place_In (startDate intervalMinutes : Z) (rs : list (string * Z))
    (b : Block) :
  forall i,
    In b (place startDate intervalMinutes i rs) ->
    exists n, In (blk_status b, n) rs /\ isFree (blk_status b) = false.
Proof.
  induction rs as [|[s n] t IH]; intros i; simpl; [tauto|].
  intros Hb. apply in_app_or in Hb as [Hb|Hb].
  - destruct (isFree s) eqn:Hs; [destruct Hb|].
    destruct Hb as [<-|[]]. simpl. exists n. auto.
  - destruct (IH _ Hb) as [k [Hk Hf]]. exists k. auto.
Qed.

(** X13. Every block [parseAvailabilityView] returns carries the status
    of some bucket of the view and never the status [Free]; the icon
    [getStatusIcon] gives it is therefore never the green one: it is the
    yellow one for a [Tentative] block, the red one for a [Busy] block
    and the white one for every other block. *)
Theorem parseAvailabilityView_block_status
    (view : string) (startDate intervalMinutes : Z) (b : Block) :
  In b (parseAvailabilityView view startDate intervalMinutes) ->
  (exists c, In c (list_ascii_of_string view) /\ c <> "0"%char /\
             blk_status b = statusMap c) /\
  blk_status b <> "Free"%string /\
  getStatusIcon (blk_status b) <> "🟢"%string /\
  (getStatusIcon (blk_status b) = "🟡"%string <->
   blk_status b = "Tentative"%string) /\
  (getStatusIcon (blk_status b) = "🔴"%string <->
   blk_status b = "Busy"%string) /\
  (getStatusIcon (blk_status b) = "⚪"%string <->
   blk_status b <> "Tentative"%string /\ blk_status b <> "Busy"%string).
Proof.
  rewrite parseAvailabilityView_runs. intros Hb.
  apply place_In in Hb as [n [Hn Hf]]. apply runs_In in Hn.
  apply in_map_iff in Hn as [c [Hc Hin]].
  assert (Hfree : blk_status b <> "Free"%string).
  { intros E. unfold isFree in Hf. rewrite E in Hf. discriminate. }
  split.
  { exists c. split; [exact Hin|]. split; [|auto].
    intros ->. rewrite <- Hc in Hf. discriminate. }
  split; [exact Hfree|].
  unfold getStatusIcon.
  destruct (String.eqb_spec (blk_status b) "Free"); [contradiction|].
  destruct (String.eqb_spec (blk_status b) "Tentative") as [ET|NT].
  { rewrite ET. repeat split; try discriminate; auto; intros [H _];
      contradiction. }
  destruct (String.eqb_spec (blk_status b) "Busy") as [EB|NB].
  { rewrite EB. repeat split; try discriminate; auto; intros [_ H];
      contradiction. }
  repeat split; try discriminate; auto; intros; contradiction.
Qed.

Lemma parseAvailabilityView_block_status_witness :
  blk_status (mkBlock (clock jan1 1 0) (clock jan1 2 0) "Busy")
  <> "Free"%string.
Proof.
  apply (parseAvailabilityView_block_status "0022110" jan1 30).
  vm_compute. left. reflexivity.
Defined.

Lemma occupiedInRuns_runs (l : list string) :
  occupiedInRuns (runs l)
  = Z.of_nat (List.length (filter (fun s => negb (isFree s)) l)).
Proof.
  induction l as [|s r IH]; [reflexivity|].
  cbn [runs filter]. destruct (runs r) as [|[s' n] t].
  - cbn [occupiedInRuns] in *.
    destruct (isFree s); cbn [negb List.length];
      rewrite ?Nat2Z.inj_succ; lia.
  - cbn [occupiedInRuns] in IH.
    destruct (String.eqb_spec s s') as [<-|Hne]; cbn [occupiedInRuns];
      destruct (isFree s); cbn [negb List.length];
      rewrite ?Nat2Z.inj_succ; lia.
Qed.

Lemma place_totalLength (startDate intervalMinutes : Z)
    (rs : list (string * Z)) :
  forall i,
    totalLength (map blockInterval (place startDate intervalMinutes i rs))
    = occupiedInRuns rs * (intervalMinutes * 60000).
Proof.
  induction rs as [|[s n] t IH]; intros i; [reflexivity|].
  cbn [place occupiedInRuns]. rewrite map_app.
  destruct (isFree s); simpl; rewrite IH; unfold bucketTime; ring.
Qed.

(** X14. The blocks [parseAvailabilityView] returns are together exactly
    as long as the buckets of the view whose code is not [0]: their
    summed length is the number of those buckets times the bucket
    width. *)
Theorem parseAvailabilityView_total_length
    (view : string) (startDate intervalMinutes : Z) :
  totalLength
    (map blockInterval (parseAvailabilityView view startDate intervalMinutes))
  = occupiedBuckets view * (intervalMinutes * 60000).
Proof.
  rewrite parseAvailabilityView_runs, place_totalLength, occupiedInRuns_runs.
  unfold occupiedBuckets. f_equal. f_equal.
  induction (list_ascii_of_string view) as [|c r IH]; [reflexivity|].
  simpl. rewrite statusMap_free.
  destruct (Ascii.eqb c "0"); simpl; rewrite IH; reflexivity.
Qed.

(** ** The decoder, instant by instant *)

Section DecodedInstants.

Variables startDate intervalMinutes : Z.
Hypothesis width_positive : 0 < intervalMinutes.

Local Abbreviation bt := (bucketTime startDate intervalMinutes).

Lemma bucketTime_strict (i j : Z) : i < j -> bt i < bt j.
Proof. unfold bucketTime. nia. Qed.

Lemma bucketTime_le (i j : Z) : i <= j -> bt i <= bt j.
Proof. unfold bucketTime. nia. Qed.

(** An instant of a stretch of [n] buckets lies in one of them. *)
Lemma bucket_of_instant (i n t : Z) :
  bt i <= t < bt (i + n) ->
  exists q, 0 <= q < n /\ bt (i + q) <= t < bt (i + q + 1).
Proof.
  intros Ht. set (W := intervalMinutes * 60000).
  assert (HW : 0 < W) by (unfold W; lia).
  exists ((t - bt i) / W).
  pose proof (Z.div_mod (t - bt i) W ltac:(lia)) as Hdm.
  pose proof (Z.mod_pos_bound (t - bt i) W HW) as Hmb.
  assert (Hq : 0 <= (t - bt i) / W) by (apply Z.div_pos; lia).
  assert (Hb : forall q, bt (i + q) = bt i + W * q)
    by (intros q; unfold bucketTime, W; ring).
  rewrite !Hb in *.
  replace (i + (t - bt i) / W + 1) with (i + ((t - bt i) / W + 1)) by lia.
  rewrite Hb. split; [|lia]. split; [exact Hq|].
  destruct (Z_lt_le_dec ((t - bt i) / W) n) as [|Hge]; [assumption|].
  exfalso. assert (W * n <= W * ((t - bt i) / W)) by nia. lia.
Qed.

Lemma place_decodes (rs : list (string * Z)) :
  Forall (fun r => 1 <= snd r) rs ->
  forall i t s,
    (exists b, In b (place startDate intervalMinutes i rs) /\
               blk_status b = s /\ blk_start b <= t < blk_end b)
    <->
    (exists k : nat,
       (k < List.length (expandRuns rs))%nat /\
       nth k (expandRuns rs) EmptyString = s /\ isFree s = false /\
       bt (i + Z.of_nat k) <= t < bt (i + Z.of_nat k + 1)).
Proof.
  induction rs as [|[s0 n] t0 IH]; intros Hpos i t s.
  - simpl. split; [intros [b [[] _]] | intros [k [Hk _]]; lia].
  - apply Forall_cons_iff in Hpos as [Hn Hpos]. simpl in Hn.
    specialize (IH Hpos (i + n) t s).
    assert (Hm : Z.of_nat (Z.to_nat n) = n) by lia.
    cbn [place expandRuns flat_map fst snd]. fold (expandRuns t0).
    rewrite length_app, repeat_length. split.
    + intros [b [Hb [Hs Ht]]]. apply in_app_or in Hb as [Hb|Hb].
      * destruct (isFree s0) eqn:Hf; [destruct Hb|].
        destruct Hb as [<-|[]]. simpl in Hs, Ht. subst s0.
        destruct (bucket_of_instant i n t Ht) as [q [Hq Hqt]].
        exists (Z.to_nat q). split; [lia|]. split.
        { rewrite app_nth1 by (rewrite repeat_length; lia).
          apply nth_repeat_lt. lia. }
        split; [exact Hf|].
        replace (Z.of_nat (Z.to_nat q)) with q by lia. exact Hqt.
      * destruct (proj1 IH (ex_intro _ b (conj Hb (conj Hs Ht))))
          as [k [Hk [Hnth [Hf Hkt]]]].
        exists (Z.to_nat n + k)%nat. split; [lia|]. split.
        { rewrite <- (repeat_length s0 (Z.to_nat n)) at 1.
          rewrite app_nth2_plus. exact Hnth. }
        split; [exact Hf|].
        replace (i + Z.of_nat (Z.to_nat n + k)) with (i + n + Z.of_nat k)
          by lia.
        exact Hkt.
    + intros [k [Hk [Hnth [Hf Hkt]]]].
      destruct (Nat.lt_ge_cases k (Z.to_nat n)) as [Hlt|Hge].
      * rewrite app_nth1 in Hnth by (rewrite repeat_length; lia).
        rewrite nth_repeat_lt in Hnth by exact Hlt. subst s0.
        rewrite Hf.
        exists (mkBlock (bt i) (bt (i + n)) s). split; [left; reflexivity|].
        split; [reflexivity|]. simpl.
        pose proof (bucketTime_le i (i + Z.of_nat k) ltac:(lia)).
        pose proof (bucketTime_le (i + Z.of_nat k + 1) (i + n) ltac:(lia)).
        lia.
      * replace k with (Z.to_nat n + (k - Z.to_nat n))%nat in Hnth, Hkt
          by lia.
        rewrite <- (repeat_length s0 (Z.to_nat n)) in Hnth at 1.
        rewrite app_nth2_plus in Hnth.
        replace (i + Z.of_nat (Z.to_nat n + (k - Z.to_nat n)))
          with (i + n + Z.of_nat (k - Z.to_nat n)) in Hkt by lia.
        assert (Hk' : (k - Z.to_nat n < List.length (expandRuns t0))%nat)
          by lia.
        destruct (proj2 IH
                    (ex_intro _ (k - Z.to_nat n)%nat
                       (conj Hk' (conj Hnth (conj Hf Hkt)))))
          as [b [Hb Hrest]].
        exists b. split; [apply in_or_app; right; exact Hb | exact Hrest].
Qed.

(** X15. With a positive bucket width, [parseAvailabilityView] decodes
    the view instant by instant: an instant lies in a returned block of
    status [s] exactly when it lies in a bucket of the view whose code
    maps to [s] and [s] is not [Free].  Bucket [k] is the width-long
    stretch that starts [k] widths after the start date. *)
Theorem parseAvailabilityView_decodes_instants (view : string) (t : Z)
    (s : string) :
  (exists b,
     In b (parseAvailabilityView view startDate intervalMinutes) /\
     blk_status b = s /\ blk_start b <= t < blk_end b)
  <->
  (exists k : nat,
     (k < String.length view)%nat /\
     statusMap (nth k (list_ascii_of_string view) "0"%char) = s /\
     s <> "Free"%string /\
     startDate + Z.of_nat k * intervalMinutes * 60000 <= t
       < startDate + (Z.of_nat k + 1) * intervalMinutes * 60000).
Proof.
  rewrite parseAvailabilityView_runs.
  rewrite (place_decodes _ (runs_positive _) 0 t s).
  unfold expandRuns. rewrite runs_expand, length_map.
  assert (Hlen : List.length (list_ascii_of_string view) = String.length view).
  { induction view as [|c r IH]; simpl; congruence. }
  rewrite Hlen.
  assert (Hfree : isFree s = false <-> s <> "Free"%string).
  { unfold isFree. destruct (String.eqb_spec s "Free"); split;
      congruence. }
  split; intros [k [Hk [Hnth [Hf Ht]]]]; exists k;
    (split; [exact Hk|]); (split; [|split; [apply Hfree; exact Hf|]]).
  - rewrite <- Hnth.
    rewrite (nth_indep _ EmptyString (statusMap "0"%char))
      by (rewrite length_map; lia).
    symmetry. apply map_nth.
  - unfold bucketTime in Ht. simpl in Ht. exact Ht.
  - rewrite <- Hnth.
    rewrite (nth_indep _ EmptyString (statusMap "0"%char))
      by (rewrite length_map; lia).
    apply map_nth.
  - unfold bucketTime. simpl. exact Ht.
Qed.

End DecodedInstants.

Lemma parseAvailabilityView_decodes_instants_witness :
  exists b,
    In b (parseAvailabilityView "0022110" jan1 30) /\
    blk_status b = "Tentative"%string /\
    blk_start b <= clock jan1 2 45 < blk_end b.
Proof.
  apply (parseAvailabilityView_decodes_instants jan1 30 ltac:(lia)).
  exists 5%nat. split; [simpl; lia|]. split; [reflexivity|].
  split; [discriminate|]. unfold clock, jan1, msPerHour, msPerMinute.
  simpl. lia.
Defined.

(** ** The decoder: neighbouring blocks *)

Lemma place_first (startDate intervalMinutes : Z) (rs : list (string * Z)) :
  0 < intervalMinutes ->
  Forall (fun r => 1 <= snd r) rs ->
  forall i b r,
    place startDate intervalMinutes i rs = b :: r ->
    bucketTime startDate intervalMinutes i <= blk_start b /\
    (blk_start b = bucketTime startDate intervalMinutes i ->
     exists n t, rs = (blk_status b, n) :: t).
Proof.
  intros Hw. induction rs as [|[s n] t IH]; intros Hpos i b r; simpl.
  - discriminate.
  - apply Forall_cons_iff in Hpos as [Hn Hpos]. simpl in Hn.
    destruct (isFree s); simpl.
    + intros E. destruct (IH Hpos _ _ _ E) as [H1 _].
      assert (bucketTime startDate intervalMinutes i
              < bucketTime startDate intervalMinutes (i + n))
        by (apply bucketTime_strict; lia).
      split; [lia|]. intros; lia.
    + intros E. injection E as <- _. simpl. split; [lia|]. eauto.
Qed.

Lemma place_neighbours (startDate intervalMinutes : Z)
    (rs : list (string * Z)) :
  0 < intervalMinutes ->
  Forall (fun r => 1 <= snd r) rs ->
  Sorted (fun a b => fst a <> fst b) rs ->
  forall i,
    Sorted (fun a b => blk_end a <= blk_start b /\
                       (blk_status a = blk_status b ->
                        blk_end a < blk_start b))
           (place startDate intervalMinutes i rs).
Proof.
  intros Hw. induction rs as [|[s n] t IH]; intros Hpos Hd i; simpl.
  - constructor.
  - apply Forall_cons_iff in Hpos as [Hn Hpos]. simpl in Hn.
    apply Sorted_inv in Hd as [Hd Hh].
    destruct (isFree s); simpl; [apply IH; assumption|].
    constructor; [apply IH; assumption|].
    destruct (place startDate intervalMinutes (i + n) t) as [|b r] eqn:E;
      constructor.
    destruct (place_first _ _ t Hw Hpos _ _ _ E) as [H1 H2]. simpl.
    split; [exact H1|]. intros Hs.
    destruct (Z.eq_dec (blk_start b)
                (bucketTime startDate intervalMinutes (i + n))) as [Heq|];
      [|lia].
    exfalso. destruct (H2 Heq) as [k [t' ->]].
    apply HdRel_inv in Hh. simpl in Hh. congruence.
Qed.

Lemma Sorted_adjacent {A : Type} (R : A -> A -> Prop) (l : list A) :
  Sorted R l ->
  forall pre a b post, l = pre ++ a :: b :: post -> R a b.
Proof.
  intros Hs pre. revert l Hs.
  induction pre as [|x pre IH]; intros l Hs a b post ->; simpl in Hs.
  - apply Sorted_inv in Hs as [_ Hh]. apply HdRel_inv in Hh. exact Hh.
  - apply Sorted_inv in Hs as [Hs _]. eapply IH; [exact Hs | reflexivity].
Qed.

(** X16. With a positive bucket width, two blocks that follow one another
    in the result of [parseAvailabilityView] never overlap, and when they
    have the same status there is a real gap between them: a run is never
    reported in two pieces. *)
Theorem parseAvailabilityView_neighbours
    (view : string) (startDate intervalMinutes : Z)
    (pre post : list Block) (a b : Block) :
  0 < intervalMinutes ->
  parseAvailabilityView view startDate intervalMinutes
  = pre ++ a :: b :: post ->
  blk_end a <= blk_start b /\
  (blk_status a = blk_status b -> blk_end a < blk_start b).
Proof.
  intros Hw E. rewrite parseAvailabilityView_runs in E.
  set (l := map statusMap (list_ascii_of_string view)) in E.
  exact (Sorted_adjacent _ _
           (place_neighbours startDate intervalMinutes (runs l) Hw
              (runs_positive l) (runs_distinct l) 0) pre a b post E).
Qed.

Lemma parseAvailabilityView_neighbours_witness :
  blk_end (mkBlock (clock jan1 0 0) (clock jan1 0 30) "Busy")
  <= blk_start (mkBlock (clock jan1 1 0) (clock jan1 1 30) "Busy") /\
  (blk_status (mkBlock (clock jan1 0 0) (clock jan1 0 30) "Busy")
   = blk_status (mkBlock (clock jan1 1 0) (clock jan1 1 30) "Busy") ->
   blk_end (mkBlock (clock jan1 0 0) (clock jan1 0 30) "Busy")
   < blk_start (mkBlock (clock jan1 1 0) (clock jan1 1 30) "Busy")).
Proof.
  apply (parseAvailabilityView_neighbours "202" jan1 30 [] []).
  - lia.
  - vm_compute. reflexivity.
Defined.

(** ** The delete-event command *)

Section DeleteEventProperties.

Variable lowerCase : string -> string.
Variable includes : string -> string -> bool.
Variable parseInt : string -> option Z.

Lemma deletableEvents_spec (data : list CalendarEvent)
    (search : option string) (e : CalendarEvent) :
  In e (deletableEvents lowerCase includes data search) ->
  In e data /\ IsOrganizer e = true /\ IsCancelled e = false /\
  (forall s, truthy search = Some s ->
             subjectMatches lowerCase includes (lowerCase s) e = true).
Proof.
  unfold deletableEvents. intros He.
  assert (Hbase : In e (filter (fun e => IsOrganizer e && negb (IsCancelled e))
                               data) ->
                  In e data /\ IsOrganizer e = true /\ IsCancelled e = false).
  { intros H. apply filter_In in H as [H1 H2].
    apply andb_true_iff in H2 as [H2 H3]. apply negb_true_iff in H3. auto. }
  destruct (truthy search) as [s|].
  - apply filter_In in He as [He Hm].
    destruct (Hbase He) as [H1 [H2 H3]].
    repeat split; auto. intros s' E. injection E as <-. exact Hm.
  - destruct (Hbase He) as [H1 [H2 H3]].
    repeat split; auto. intros s' E. discriminate.
Qed.

(** X17. Whatever the fetched events, the search text and the event
    number are, the event the delete-event command deletes is one of the
    fetched events, organised by the user and not cancelled, and when a
    search text is given its lower-cased subject contains the lower-cased
    search text; an event without a subject is never deleted under a
    search. *)
Theorem deleteEventPlan_target_is_deletable
    (data : list CalendarEvent) (search eventIndex : option string)
    (target : CalendarEvent) :
  deleteEventPlan lowerCase includes parseInt data search eventIndex
  = DeleteTarget target ->
  In target data /\ IsOrganizer target = true /\
  IsCancelled target = false /\
  (forall s, truthy search = Some s ->
     exists subject, Subject target = Some subject /\
                     includes (lowerCase subject) (lowerCase s) = true).
Proof.
  unfold deleteEventPlan. intros H.
  destruct (truthy eventIndex) as [text|]; [|discriminate].
  destruct (parseInt text) as [n|]; [|discriminate].
  destruct ((n - 1 <? 0) || _); [discriminate|].
  destruct (nth_error _ _) as [e|] eqn:E; [|discriminate].
  injection H as <-. apply nth_error_In in E.
  destruct (deletableEvents_spec data search e E) as [H1 [H2 [H3 H4]]].
  repeat split; auto. intros s Hs. specialize (H4 s Hs).
  unfold subjectMatches in H4.
  destruct (Subject e) as [subject|]; [eauto | discriminate].
Qed.

Lemma numberFrom_In (events : list CalendarEvent) :
  forall i k e,
    In (k, e) (numberFrom i events) <->
    i <= k /\ nth_error events (Z.to_nat (k - i)) = Some e.
Proof.
  induction events as [|x r IH]; intros i k e; simpl.
  - split; [tauto|]. intros [_ H]. destruct (Z.to_nat (k - i)); discriminate.
  - rewrite IH. split.
    + intros [E|[Hk Hn]].
      * injection E as <- <-. split; [lia|].
        rewrite Z.sub_diag. reflexivity.
      * split; [lia|].
        replace (Z.to_nat (k - i)) with (S (Z.to_nat (k - (i + 1)))) by lia.
        exact Hn.
    + intros [Hk Hn]. destruct (Z.eq_dec k i) as [->|Hne].
      * left. rewrite Z.sub_diag in Hn. simpl in Hn. congruence.
      * right. split; [lia|].
        replace (Z.to_nat (k - i)) with (S (Z.to_nat (k - (i + 1)))) in Hn
          by lia.
        exact Hn.
Qed.

(** X18. The number shown in the list of the delete-event command is the
    number that deletes: for the same fetched events and search text, an
    event index that parses to [n] deletes event [e] exactly when the
    list printed without an index shows [e] under number [n].  An index
    that does not parse, or parses to a number that the list does not
    show, deletes nothing. *)
Theorem deleteEventPlan_number_matches_list
    (data : list CalendarEvent) (search : option string) (text : string) :
  text <> EmptyString ->
  exists listed,
    deleteEventPlan lowerCase includes parseInt data search None
    = ListEvents listed /\
    (forall n e,
       parseInt text = Some n ->
       (deleteEventPlan lowerCase includes parseInt data search (Some text)
        = DeleteTarget e <-> In (n, e) listed)) /\
    (parseInt text = None ->
     deleteEventPlan lowerCase includes parseInt data search (Some text)
     = InvalidEventNumber (List.length listed)) /\
    (forall n,
       parseInt text = Some n ->
       (forall e, ~ In (n, e) listed) ->
       deleteEventPlan lowerCase includes parseInt data search (Some text)
       = InvalidEventNumber (List.length listed)).
Proof.
  intros Htext.
  set (events := deletableEvents lowerCase includes data search).
  exists (numberFrom 1 events).
  assert (Hlen : List.length (numberFrom 1 events) = List.length events).
  { generalize 1. induction events as [|x r IH]; intros i; simpl;
      [reflexivity | rewrite IH; reflexivity]. }
  assert (Htruthy : truthy (Some text) = Some text).
  { unfold truthy. destruct (String.eqb_spec text EmptyString);
      [contradiction | reflexivity]. }
  assert (Hplan : forall n,
    parseInt text = Some n ->
    deleteEventPlan lowerCase includes parseInt data search (Some text)
    = if (n - 1 <? 0) || (n - 1 >=? Z.of_nat (List.length events))
      then InvalidEventNumber (List.length events)
      else match nth_error events (Z.to_nat (n - 1)) with
           | Some e => DeleteTarget e
           | None => InvalidEventNumber (List.length events)
           end).
  { intros n Hn. unfold deleteEventPlan. rewrite Htruthy, Hn. reflexivity. }
  split; [reflexivity|]. rewrite Hlen. split; [|split].
  - intros n e Hn. rewrite (Hplan n Hn), numberFrom_In.
    destruct (Z.ltb_spec (n - 1) 0); simpl.
    + split; [discriminate | lia].
    + rewrite Z.geb_leb.
      destruct (Z.leb_spec (Z.of_nat (List.length events)) (n - 1)).
      * split; [discriminate|]. intros [_ Hnth].
        assert (Hlt : (Z.to_nat (n - 1) < List.length events)%nat)
          by (apply nth_error_Some; congruence).
        lia.
      * destruct (nth_error events (Z.to_nat (n - 1))) as [x|] eqn:E.
        -- split.
           ++ intros H1. injection H1 as <-. split; [lia | reflexivity].
           ++ intros [_ H1]. congruence.
        -- split; [discriminate|]. intros [_ H1]. discriminate.
  - intros Hn. unfold deleteEventPlan. rewrite Htruthy, Hn. reflexivity.
  - intros n Hn Hnot. rewrite (Hplan n Hn).
    destruct ((n - 1 <? 0) || _) eqn:Ec; [reflexivity|].
    destruct (nth_error events (Z.to_nat (n - 1))) as [x|] eqn:E;
      [|reflexivity].
    exfalso. apply (Hnot x). apply numberFrom_In.
    apply orb_false_iff in Ec as [Ec _]. apply Z.ltb_ge in Ec.
    split; [lia | exact E].
Qed.

End DeleteEventProperties.

Lemma deleteEventPlan_target_is_deletable_witness :
  IsOrganizer (mkEvent "id-1" (Some "Standup"%string) (clock jan1 9 0)
                       (clock jan1 9 30) true false) = true.
Proof.
  apply (deleteEventPlan_target_is_deletable
           (fun s => s) (fun _ _ => true) (fun _ => Some 1)
           [mkEvent "id-1" (Some "Standup"%string) (clock jan1 9 0)
                    (clock jan1 9 30) true false]
           None (Some "1"%string)).
  reflexivity.
Defined.

Lemma deleteEventPlan_number_matches_list_witness :
  exists listed,
    deleteEventPlan (fun s => s) (fun _ _ => true) (fun _ => Some 1)
      [mkEvent "id-1" (Some "Standup"%string) (clock jan1 9 0) (clock jan1 9 30)
               true false]
      None None
    = ListEvents listed.
Proof.
  destruct (deleteEventPlan_number_matches_list
              (fun s => s) (fun _ _ => true) (fun _ => Some 1)
              [mkEvent "id-1" (Some "Standup"%string) (clock jan1 9 0)
                       (clock jan1 9 30) true false]
              None "1"%string) as [listed [H _]].
  - discriminate.
  - exists listed. exact H.
Defined.

(** ** Markdown to HTML: escaping *)

Lemma string_app_assoc (a b c : string) :
  ((a ++ b) ++ c = a ++ (b ++ c))%string.
Proof. induction a as [|x r IH]; simpl; [reflexivity | rewrite IH; reflexivity]. Qed.

Lemma replaceChar_app (c : ascii) (rep a b : string) :
  replaceChar c rep (a ++ b)%string
  = (replaceChar c rep a ++ replaceChar c rep b)%string.
Proof.
  induction a as [|x r IH]; simpl; [reflexivity|].
  destruct (Ascii.eqb x c); simpl; rewrite IH; [|reflexivity].
  rewrite string_app_assoc. reflexivity.
Qed.

(** The three replacements in sequence escape each character on its
    own. *)
Lemma escapeHtml_cons (x : ascii) (r : string) :
  escapeHtml (String x r) = (escapedChar x ++ escapeHtml r)%string.
Proof.
  unfold escapeHtml, escapedChar. cbn [replaceChar].
  destruct (Ascii.eqb_spec x "&") as [->|H1].
  - rewrite !replaceChar_app. reflexivity.
  - cbn [replaceChar].
    destruct (Ascii.eqb_spec x "<") as [->|H2].
    + rewrite !replaceChar_app. reflexivity.
    + cbn [replaceChar].
      destruct (Ascii.eqb_spec x ">") as [->|H3]; reflexivity.
Qed.

Lemma escapedChar_cases (x : ascii) :
  (x = "&"%char /\ escapedChar x = "&amp;"%string) \/
  (x = "<"%char /\ escapedChar x = "&lt;"%string) \/
  (x = ">"%char /\ escapedChar x = "&gt;"%string) \/
  (x <> "&"%char /\ x <> "<"%char /\ x <> ">"%char /\
   escapedChar x = String x EmptyString).
Proof.
  unfold escapedChar.
  destruct (Ascii.eqb_spec x "&") as [->|H1]; [left; auto|].
  destruct (Ascii.eqb_spec x "<") as [->|H2]; [right; left; auto|].
  destruct (Ascii.eqb_spec x ">") as [->|H3]; [right; right; left; auto|].
  right; right; right. auto.
Qed.

(** X19. The escaping step of [markdownToHtml] leaves no [<] and no [>]
    in the text, keeps a text without [&], [<] and [>] as it is, and
    loses nothing: two different texts are escaped to different texts. *)
Theorem escapeHtml_safe_and_injective :
  (forall text c,
     In c (list_ascii_of_string (escapeHtml text)) ->
     c <> "<"%char /\ c <> ">"%char) /\
  (forall text,
     (forall c, In c (list_ascii_of_string text) ->
                c <> "&"%char /\ c <> "<"%char /\ c <> ">"%char) ->
     escapeHtml text = text) /\
  (forall a b, escapeHtml a = escapeHtml b -> a = b).
Proof.
  split; [|split].
  - induction text as [|x r IH]; intros c; [intros []|].
    rewrite escapeHtml_cons.
    destruct (escapedChar_cases x)
      as [[_ ->]|[[_ ->]|[[_ ->]|[H1 [H2 [H3 ->]]]]]];
      simpl; intros Hc;
      repeat (destruct Hc as [<-|Hc]; [split; congruence|]);
      apply IH; exact Hc.
  - induction text as [|x r IH]; intros Hc; [reflexivity|].
    rewrite escapeHtml_cons.
    destruct (Hc x (or_introl eq_refl)) as [H1 [H2 H3]].
    destruct (escapedChar_cases x)
      as [[E _]|[[E _]|[[E _]|[_ [_ [_ ->]]]]]]; try contradiction.
    simpl. f_equal. apply IH. intros c Hin. apply Hc. right. exact Hin.
  - induction a as [|x r IH]; intros [|y q].
    + reflexivity.
    + rewrite escapeHtml_cons.
      destruct (escapedChar_cases y)
        as [[_ ->]|[[_ ->]|[[_ ->]|[_ [_ [_ ->]]]]]]; discriminate.
    + rewrite escapeHtml_cons.
      destruct (escapedChar_cases x)
        as [[_ ->]|[[_ ->]|[[_ ->]|[_ [_ [_ ->]]]]]]; discriminate.
    + rewrite !escapeHtml_cons.
      destruct (escapedChar_cases x)
        as [[-> ->]|[[-> ->]|[[-> ->]|[X1 [X2 [X3 ->]]]]]];
      destruct (escapedChar_cases y)
        as [[-> ->]|[[-> ->]|[[-> ->]|[Y1 [Y2 [Y3 ->]]]]]];
      simpl; intros E; try discriminate;
      try (injection E as E; f_equal; apply IH; exact E);
      try (injection E as E1 E; congruence).
      injection E as -> E. f_equal. apply IH. exact E.
Qed.

Lemma escapeHtml_safe_and_injective_witness :
  escapeHtml "plain text" = "plain text"%string.
Proof.
  apply (proj1 (proj2 escapeHtml_safe_and_injective)).
  intros c Hc. simpl in Hc.
  repeat (destruct Hc as [<-|Hc]; [repeat split; discriminate|]).
  destruct Hc.
Defined.

(** ** Markdown to HTML: lists *)

Lemma segments_bullet (item : string) (kinds : list LineKind) :
  flat_map renderSegment (segments (Bullet item :: kinds))
  = ["<ul>"%string; li item] ++ afterOpenUl (segments kinds) /\
  afterOpenUl (segments (Bullet item :: kinds))
  = [li item] ++ afterOpenUl (segments kinds) /\
  afterOpenOl (segments (Bullet item :: kinds))
  = ["</ol>"%string; "<ul>"%string; li item] ++ afterOpenUl (segments kinds).
Proof.
  cbn [segments].
  destruct (segments kinds) as [|[items|items|line] t]; repeat split;
    simpl; rewrite <- ?app_assoc; reflexivity.
Qed.

Lemma segments_numbered (item : string) (kinds : list LineKind) :
  flat_map renderSegment (segments (Numbered item :: kinds))
  = ["<ol>"%string; li item] ++ afterOpenOl (segments kinds) /\
  afterOpenOl (segments (Numbered item :: kinds))
  = [li item] ++ afterOpenOl (segments kinds) /\
  afterOpenUl (segments (Numbered item :: kinds))
  = ["</ul>"%string; "<ol>"%string; li item] ++ afterOpenOl (segments kinds).
Proof.
  cbn [segments].
  destruct (segments kinds) as [|[items|items|line] t]; repeat split;
    simpl; rewrite <- ?app_assoc; reflexivity.
Qed.

Lemma segments_plain (line : string) (kinds : list LineKind) :
  flat_map renderSegment (segments (Plain line :: kinds))
  = [line] ++ flat_map renderSegment (segments kinds) /\
  afterOpenUl (segments (Plain line :: kinds))
  = ["</ul>"%string; line] ++ flat_map renderSegment (segments kinds) /\
  afterOpenOl (segments (Plain line :: kinds))
  = ["</ol>"%string; line] ++ flat_map renderSegment (segments kinds).
Proof. repeat split. Qed.

Section MarkdownListProperties.

Variable unorderedMatch : string -> option string.
Variable orderedMatch : string -> option string.

Local Abbreviation kindsOf :=
  (map (classify unorderedMatch orderedMatch)).

(** The loop from any state it can be in, closed at the end, appends the
    rendering of the segments of the remaining lines; a list that is open
    takes the items that continue it. *)
Lemma listLoop_segments (lines : list string) :
  forall result inUl inOl,
    inUl && inOl = false ->
    closeLists
      (fold_left (listStep unorderedMatch orderedMatch) lines
                 (result, inUl, inOl))
    = result ++
      (if inUl then afterOpenUl (segments (kindsOf lines))
       else if inOl then afterOpenOl (segments (kindsOf lines))
       else flat_map renderSegment (segments (kindsOf lines))).
Proof.
  induction lines as [|line r IH]; intros result inUl inOl Hst.
  - simpl. destruct inUl, inOl; try discriminate; simpl;
      rewrite ?app_nil_r; reflexivity.
  - cbn [fold_left map].
    destruct (unorderedMatch line) as [item|] eqn:Hu;
      [|destruct (orderedMatch line) as [item|] eqn:Ho].
    + assert (Hk : classify unorderedMatch orderedMatch line = Bullet item)
        by (unfold classify; rewrite Hu; reflexivity).
      rewrite Hk. unfold listStep at 2. rewrite Hu.
      destruct (segments_bullet item (kindsOf r)) as [E1 [E2 E3]].
      rewrite E1, E2, E3, IH by reflexivity.
      destruct inUl, inOl; try discriminate; cbn [app];
        rewrite <- ?app_assoc; reflexivity.
    + assert (Hk : classify unorderedMatch orderedMatch line = Numbered item)
        by (unfold classify; rewrite Hu, Ho; reflexivity).
      rewrite Hk. unfold listStep at 2. rewrite Hu, Ho.
      destruct (segments_numbered item (kindsOf r)) as [E1 [E2 E3]].
      rewrite E1, E2, E3, IH by reflexivity.
      destruct inUl, inOl; try discriminate; cbn [app];
        rewrite <- ?app_assoc; reflexivity.
    + assert (Hk : classify unorderedMatch orderedMatch line = Plain line)
        by (unfold classify; rewrite Hu, Ho; reflexivity).
      rewrite Hk. unfold listStep at 2. rewrite Hu, Ho.
      destruct (segments_plain line (kindsOf r)) as [E1 [E2 E3]].
      rewrite E1, E2, E3, IH by reflexivity.
      destruct inUl, inOl; try discriminate; cbn [app];
        rewrite <- ?app_assoc; reflexivity.
Qed.

Lemma segments_wellFormed (kinds : list LineKind) :
  Forall nonEmptyList (segments kinds) /\
  Sorted notSameList (segments kinds) /\
  flat_map segmentKinds (segments kinds) = kinds.
Proof.
  induction kinds as [|k r [IH1 [IH2 IH3]]]; [repeat constructor|].
  destruct k as [item|item|line]; cbn [segments].
  - destruct (segments r) as [|[items|items|l] t].
    + repeat constructor; [discriminate | simpl in *; congruence].
    + apply Forall_cons_iff in IH1 as [_ IH1].
      apply Sorted_inv in IH2 as [IH2 Hh].
      split; [constructor; [discriminate | exact IH1]|].
      split; [constructor; [exact IH2|]; destruct t; constructor;
              apply HdRel_inv in Hh; destruct s; exact Hh|].
      simpl in *. congruence.
    + split; [constructor; [discriminate | exact IH1]|].
      split; [constructor; [exact IH2 | constructor; exact I]|].
      simpl in *. congruence.
    + split; [constructor; [discriminate | exact IH1]|].
      split; [constructor; [exact IH2 | constructor; exact I]|].
      simpl in *. congruence.
  - destruct (segments r) as [|[items|items|l] t].
    + repeat constructor; [discriminate | simpl in *; congruence].
    + split; [constructor; [discriminate | exact IH1]|].
      split; [constructor; [exact IH2 | constructor; exact I]|].
      simpl in *. congruence.
    + apply Forall_cons_iff in IH1 as [_ IH1].
      apply Sorted_inv in IH2 as [IH2 Hh].
      split; [constructor; [discriminate | exact IH1]|].
      split; [constructor; [exact IH2|]; destruct t; constructor;
              apply HdRel_inv in Hh; destruct s; exact Hh|].
      simpl in *. congruence.
    + split; [constructor; [discriminate | exact IH1]|].
      split; [constructor; [exact IH2 | constructor; exact I]|].
      simpl in *. congruence.
  - split; [constructor; [exact I | exact IH1]|].
    split; [constructor; [exact IH2|]; destruct (segments r) as [|[]];
            constructor; exact I|].
    simpl. congruence.
Qed.

(** X20. The list pass of [markdownToHtml] writes the lines out as a
    sequence of segments: every maximal stretch of consecutive bullet
    lines becomes one [<ul>], its items and one [</ul>], every maximal
    stretch of consecutive numbered lines one [<ol>], its items and one
    [</ol>], and every other line stands as it is.  So every list that is
    opened is closed, lists have at least one item and never nest, no
    item and no other line is lost or reordered, and a bullet line that
    follows a numbered one closes the ordered list before the unordered
    one opens. *)
Theorem processLists_segments (lines : list string) :
  let segs := segments (kindsOf lines) in
  processLists unorderedMatch orderedMatch lines
  = flat_map renderSegment segs /\
  Forall nonEmptyList segs /\
  Sorted notSameList segs /\
  flat_map segmentKinds segs = kindsOf lines.
Proof.
  intros segs. split.
  - unfold processLists.
    exact (listLoop_segments lines [] false false eq_refl).
  - apply segments_wellFormed.
Qed.

End MarkdownListProperties.

(** ** The send command: recipient lists *)

Lemma splitComma_nonempty (s : CodeUnits) : splitComma s <> [].
Proof.
  destruct s as [|c r]; simpl; [discriminate|].
  destruct (c =? comma)%N; [discriminate|].
  destruct (splitComma r); discriminate.
Qed.

Lemma splitComma_pieces (s : CodeUnits) (p : CodeUnits) (c : N) :
  In p (splitComma s) -> In c p -> In c s /\ c <> comma.
Proof.
  revert p. induction s as [|x r IH]; intros p; simpl.
  - intros [<-|[]] [].
  - destruct (N.eqb_spec x comma) as [->|Hx].
    + intros [<-|Hp] Hc; [destruct Hc|].
      destruct (IH p Hp Hc). auto.
    + pose proof (splitComma_nonempty r) as Hne.
      destruct (splitComma r) as [|piece rest]; [contradiction|].
      intros [<-|Hp] Hc.
      * destruct Hc as [<-|Hc]; [auto|].
        destruct (IH piece (or_introl eq_refl) Hc). auto.
      * destruct (IH p (or_intror Hp) Hc). auto.
Qed.

Lemma splitComma_covers (s : CodeUnits) (c : N) :
  In c s -> c <> comma -> exists p, In p (splitComma s) /\ In c p.
Proof.
  induction s as [|x r IH]; intros Hc Hne; [destruct Hc|]. simpl.
  destruct (N.eqb_spec x comma) as [->|Hx].
  - destruct Hc as [Hc|Hc]; [congruence|].
    destruct (IH Hc Hne) as [p [Hp Hin]]. exists p.
    split; [right; exact Hp | exact Hin].
  - pose proof (splitComma_nonempty r) as Hs.
    destruct (splitComma r) as [|piece rest]; [contradiction|].
    destruct Hc as [<-|Hc].
    + exists (x :: piece). split; left; reflexivity.
    + destruct (IH Hc Hne) as [p [[<-|Hp] Hin]].
      * exists (x :: piece). split; [left; reflexivity | right; exact Hin].
      * exists p. split; [right; exact Hp | exact Hin].
Qed.

Lemma trimStart_In (s : CodeUnits) (c : N) : In c (trimStart s) -> In c s.
Proof.
  induction s as [|x r IH]; simpl; [tauto|].
  destruct (isWhiteSpace x); [auto | intros H; exact H].
Qed.

Lemma trimEnd_In (s : CodeUnits) (c : N) : In c (trimEnd s) -> In c s.
Proof.
  induction s as [|x r IH]; simpl; [tauto|].
  destruct (trimEnd r) as [|y t].
  - destruct (isWhiteSpace x); [intros [] | intros [<-|[]]; auto].
  - intros [<-|H]; auto.
Qed.

Lemma trimStart_startsClean (s : CodeUnits) : startsClean (trimStart s).
Proof.
  induction s as [|x r IH]; simpl; [intros c t; discriminate|].
  destruct (isWhiteSpace x) eqn:E; [exact IH|].
  intros c t H. injection H as <- _. exact E.
Qed.

Lemma trimEnd_endsClean (s : CodeUnits) : endsClean (trimEnd s).
Proof.
  induction s as [|x r IH]; simpl; [intros [|a pre] c; discriminate|].
  destruct (trimEnd r) as [|y t] eqn:E.
  - destruct (isWhiteSpace x) eqn:Ex; [intros [|a pre] c; discriminate|].
    intros [|a pre] c H.
    + injection H as <-. exact Ex.
    + injection H as _ H. destruct pre; discriminate.
  - intros [|a pre] c H; [discriminate|].
    injection H as _ H. exact (IH pre c H).
Qed.

Lemma trimEnd_startsClean (s : CodeUnits) :
  startsClean s -> startsClean (trimEnd s).
Proof.
  destruct s as [|x r]; simpl; [intros _ c t; discriminate|].
  intros Hs. pose proof (Hs x r eq_refl) as Hx.
  destruct (trimEnd r) as [|y t0]; [rewrite Hx|]; intros c t H;
    injection H as <- _; exact Hx.
Qed.

Lemma trimStart_all_white (s : CodeUnits) :
  trimStart s = [] <-> (forall c, In c s -> isWhiteSpace c = true).
Proof.
  induction s as [|x r IH]; simpl; [split; [intros _ c [] | reflexivity]|].
  destruct (isWhiteSpace x) eqn:E.
  - rewrite IH. split.
    + intros H c [<-|Hc]; auto.
    + intros H c Hc. apply H. right. exact Hc.
  - split; [discriminate|]. intros H.
    specialize (H x (or_introl eq_refl)). congruence.
Qed.

Lemma trimEnd_nil (s : CodeUnits) :
  trimEnd s = [] <-> (forall c, In c s -> isWhiteSpace c = true).
Proof.
  induction s as [|x r IH]; simpl; [split; [intros _ c [] | reflexivity]|].
  destruct (trimEnd r) as [|y t].
  - destruct (isWhiteSpace x) eqn:E.
    + split; [|reflexivity]. intros _ c [<-|Hc]; [exact E|].
      apply (proj1 IH eq_refl). exact Hc.
    + split; [discriminate|]. intros H.
      specialize (H x (or_introl eq_refl)). congruence.
  - split; [discriminate|]. intros H.
    assert (Hr : y :: t = []) by (apply IH; intros c Hc; apply H; right; exact Hc).
    discriminate.
Qed.

Lemma trim_nil (s : CodeUnits) :
  trim s = [] <-> (forall c, In c s -> isWhiteSpace c = true).
Proof.
  unfold trim. split.
  - intros H.
    destruct (trimStart s) as [|x r] eqn:E; [apply trimStart_all_white, E|].
    pose proof (trimStart_startsClean s) as Hs. rewrite E in Hs.
    pose proof (Hs x r eq_refl) as Hx.
    assert (Hw : isWhiteSpace x = true)
      by (apply (proj1 (trimEnd_nil (x :: r)) H); left; reflexivity).
    congruence.
  - intros H. apply trimStart_all_white in H. rewrite H. reflexivity.
Qed.

Lemma parseRecipients_clean (text r : CodeUnits) :
  In r (parseRecipients text) -> cleanRecipient r.
Proof.
  unfold parseRecipients. intros Hr.
  apply filter_In in Hr as [Hr Hne].
  apply in_map_iff in Hr as [p [<- Hp]].
  split; [destruct (trim p); [discriminate | discriminate]|].
  split; [|split].
  - intros Hc. unfold trim in Hc.
    apply trimEnd_In, trimStart_In in Hc.
    destruct (splitComma_pieces text p comma Hp Hc) as [_ H]. exact (H eq_refl).
  - apply trimEnd_startsClean, trimStart_startsClean.
  - apply trimEnd_endsClean.
Qed.

(** X21. Every address the send command reads from a [--to], [--cc] or
    [--bcc] option is non-empty, contains no comma and neither starts nor
    ends with white space; and the option yields no address at all, the
    case in which [--to] is rejected, exactly when it consists of commas
    and white space only. *)
Theorem parseRecipients_addresses (text : CodeUnits) :
  (forall r, In r (parseRecipients text) -> cleanRecipient r) /\
  (parseRecipients text = [] <->
   (forall c, In c text -> c = comma \/ isWhiteSpace c = true)).
Proof.
  split; [intros r; apply parseRecipients_clean|].
  unfold parseRecipients. split.
  - intros He c Hc. destruct (N.eq_dec c comma) as [|Hne]; [left; assumption|].
    right. destruct (splitComma_covers text c Hc Hne) as [p [Hp Hin]].
    destruct (trim p) as [|x t] eqn:E.
    + apply (proj1 (trim_nil p) E). exact Hin.
    + exfalso.
      assert (Hin' : In (x :: t) (filter nonEmpty (map trim (splitComma text)))).
      { apply filter_In. split; [|reflexivity].
        rewrite <- E. apply in_map. exact Hp. }
      rewrite He in Hin'. destruct Hin'.
  - intros Hall.
    destruct (filter nonEmpty (map trim (splitComma text))) as [|r rest] eqn:E;
      [reflexivity|]. exfalso.
    assert (Hr : In r (filter nonEmpty (map trim (splitComma text))))
      by (rewrite E; left; reflexivity).
    apply filter_In in Hr as [Hr Hne].
    apply in_map_iff in Hr as [p [<- Hp]].
    assert (Ht : trim p = []).
    { apply trim_nil. intros c Hc.
      destruct (splitComma_pieces text p c Hp Hc) as [Hin Hc'].
      destruct (Hall c Hin); [contradiction | assumption]. }
    rewrite Ht in Hne. discriminate.
Qed.

Lemma parseRecipients_addresses_witness :
  cleanRecipient [97; 64; 98]%N.
Proof.
  apply (proj1 (parseRecipients_addresses
                  [32; 97; 64; 98; 32; 44; 32; 99; 64; 100]%N)).
  vm_compute. left. reflexivity.
Defined.

Lemma splitComma_app_comma (a rest : CodeUnits) :
  ~ In comma a -> splitComma (a ++ comma :: rest) = a :: splitComma rest.
Proof.
  induction a as [|x r IH]; intros Hn; simpl.
  - rewrite ?N.eqb_refl. reflexivity.
  - destruct (N.eqb_spec x comma) as [->|Hx];
      [exfalso; apply Hn; left; reflexivity|].
    rewrite IH by (intros H; apply Hn; right; exact H). reflexivity.
Qed.

Lemma splitComma_no_comma (a : CodeUnits) :
  ~ In comma a -> splitComma a = [a].
Proof.
  induction a as [|x r IH]; intros Hn; simpl; [reflexivity|].
  destruct (N.eqb_spec x comma) as [->|Hx];
    [exfalso; apply Hn; left; reflexivity|].
  rewrite IH by (intros H; apply Hn; right; exact H). reflexivity.
Qed.

Lemma trimStart_clean (a : CodeUnits) : startsClean a -> trimStart a = a.
Proof.
  destruct a as [|x r]; simpl; [reflexivity|].
  intros H. rewrite (H x r eq_refl). reflexivity.
Qed.

Lemma trimEnd_clean (a : CodeUnits) : endsClean a -> trimEnd a = a.
Proof.
  induction a as [|x r IH]; intros H; simpl; [reflexivity|].
  destruct r as [|y t].
  - simpl. rewrite (H [] x eq_refl). reflexivity.
  - rewrite IH; [reflexivity|].
    intros pre c E. apply (H (x :: pre) c). rewrite E. reflexivity.
Qed.

Lemma trim_clean (a : CodeUnits) : cleanRecipient a -> trim a = a.
Proof.
  intros [_ [_ [Hs He]]]. unfold trim.
  rewrite (trimStart_clean a Hs). apply trimEnd_clean, He.
Qed.

Lemma trimmed_after_space (text : CodeUnits) :
  map trim (splitComma (space :: text)) = map trim (splitComma text).
Proof.
  cbn [splitComma]. change (space =? comma)%N with false. cbv iota.
  pose proof (splitComma_nonempty text) as Hne.
  destruct (splitComma text) as [|p ps]; [contradiction|].
  reflexivity.
Qed.

Lemma parseRecipients_join (l : list CodeUnits) :
  Forall cleanRecipient l -> parseRecipients (joinCommaSpace l) = l.
Proof.
  induction l as [|a r IH]; intros Hl; [reflexivity|].
  apply Forall_cons_iff in Hl as [Ha Hr].
  pose proof (trim_clean a Ha) as Ht.
  destruct Ha as [Hne [Hc _]].
  destruct r as [|b r'].
  - unfold parseRecipients. simpl joinCommaSpace.
    rewrite (splitComma_no_comma a Hc). simpl. rewrite Ht.
    destruct a; [contradiction | reflexivity].
  - specialize (IH Hr).
    change (joinCommaSpace (a :: b :: r'))
      with (a ++ comma :: space :: joinCommaSpace (b :: r')).
    unfold parseRecipients in *.
    rewrite (splitComma_app_comma a _ Hc). cbn [map].
    rewrite trimmed_after_space, Ht. cbn [filter].
    destruct a; [contradiction|]. cbn [nonEmpty]. rewrite IH. reflexivity.
Qed.

(** X22. The recipient list the send command echoes reads back as
    itself: joining a list of clean addresses with a comma and a space
    and parsing the result gives the same list.  In particular parsing
    is settled after one pass: the addresses read from an option, joined
    and parsed again, are the addresses read the first time. *)
Theorem parseRecipients_round_trip :
  (forall l, Forall cleanRecipient l ->
             parseRecipients (joinCommaSpace l) = l) /\
  (forall text,
     parseRecipients (joinCommaSpace (parseRecipients text))
     = parseRecipients text).
Proof.
  split; [exact parseRecipients_join|].
  intros text. apply parseRecipients_join.
  apply Forall_forall. intros r Hr.
  exact (parseRecipients_clean text r Hr).
Qed.

Lemma parseRecipients_round_trip_witness :
  parseRecipients (joinCommaSpace [[97; 64; 98]; [99; 64; 100]]%N)
  = [[97; 64; 98]; [99; 64; 100]]%N.
Proof.
  apply (proj1 parseRecipients_round_trip).
  constructor; [|constructor; [|constructor]].
  - apply (parseRecipients_clean [97; 64; 98; 44; 99; 64; 100]%N).
    vm_compute. left. reflexivity.
  - apply (parseRecipients_clean [97; 64; 98; 44; 99; 64; 100]%N).
    vm_compute. right. left. reflexivity.
Defined.

(** ** Instances of the empty-result properties *)

Lemma findFreeSlots_empty_iff_window_busy_witness :
  findFreeSlots 0 [mkSlot (clock jan1 8 0) (clock jan1 18 0) "Busy" None]
                jan1 (jan1 + 86399999) 9 17 = [].
Proof.
  apply findFreeSlots_empty_iff_window_busy.
  replace (windowStart 0 jan1 9) with (clock jan1 9 0)
    by (vm_compute; reflexivity).
  replace (windowEnd 0 jan1 17) with (clock jan1 17 0)
    by (vm_compute; reflexivity).
  intros t Ht. eexists. split; [left; reflexivity|].
  split; [reflexivity|]. simpl.
  unfold clock, msPerHour, msPerMinute in *. lia.
Defined.

Lemma findBusyFromFreeSlots_empty_iff_window_free_witness :
  findBusyFromFreeSlots 0
    [mkItem "Free" (mkDateTimeTZ (clock jan1 8 0) "UTC")
            (mkDateTimeTZ (clock jan1 18 0) "UTC") None]
    jan1 9 17 = [].
Proof.
  apply findBusyFromFreeSlots_empty_iff_window_free.
  replace (windowStart 0 jan1 9) with (clock jan1 9 0)
    by (vm_compute; reflexivity).
  replace (windowEnd 0 jan1 17) with (clock jan1 17 0)
    by (vm_compute; reflexivity).
  intros t Ht. eexists. split; [left; reflexivity|].
  split; [reflexivity|]. simpl.
  unfold clock, msPerHour, msPerMinute in *. lia.
Defined.

Lemma parseAvailabilityView_empty_iff_all_free_witness :
  parseAvailabilityView "000" jan1 30 = [].
Proof.
  apply parseAvailabilityView_empty_iff_all_free.
  intros c [<-|[<-|[<-|[]]]]; reflexivity.
Defined.

(** ** The report for another mailbox *)

Lemma singleton_head {A : Type} (a b : A) (l : list A) :
  a :: l = [b] -> a = b.
Proof. intros H. injection H as H _. exact H. Qed.

Lemma busyLine_not_free (item : BusySummary) :
  status item = "Busy"%string ->
  busyLine item <> freeAllDayLine /\ busyLine item <> freeWorkingHoursLine.
Proof.
  intros Hs. unfold busyLine, freeAllDayLine, freeWorkingHoursLine.
  rewrite Hs. simpl. split; discriminate.
Qed.

Lemma blockLine_not_free (tz : Z) (block : Block) :
  blk_status block <> "Free"%string ->
  blockLine tz block <> freeAllDayLine /\
  blockLine tz block <> freeWorkingHoursLine.
Proof.
  intros Hs.
  unfold blockLine, freeAllDayLine, freeWorkingHoursLine, getStatusIcon.
  destruct (String.eqb_spec (blk_status block) "Free"); [contradiction|].
  destruct (String.eqb (blk_status block) "Tentative");
    [simpl; split; discriminate|].
  destruct (String.eqb (blk_status block) "Busy"); simpl; split;
    discriminate.
Qed.

Lemma findBusyFromFreeSlots_status (tz : Z) (items : list ScheduleItem)
    (dayStart workStart workEnd : Z) (b : BusySummary) :
  In b (findBusyFromFreeSlots tz items dayStart workStart workEnd) ->
  status b = "Busy"%string.
Proof.
  rewrite findBusyFromFreeSlots_gaps. intros Hb.
  apply in_map_iff in Hb as [g [<- _]]. reflexivity.
Qed.

Lemma parseAvailabilityView_not_free (view : string)
    (startDate intervalMinutes : Z) (b : Block) :
  In b (parseAvailabilityView view startDate intervalMinutes) ->
  blk_status b <> "Free"%string.
Proof.
  rewrite parseAvailabilityView_runs. intros Hb.
  apply place_In in Hb as [n [_ Hf]].
  intros E. unfold isFree in Hf. rewrite E in Hf. discriminate.
Qed.

(** X23. For another mailbox the free/busy command prints the single
    line that says free all day exactly when the schedule has no
    schedule item and its availability view is absent, empty or made of
    the code [0] only; it prints the single line that says free during
    working hours exactly when the schedule has schedule items and every
    instant of the work window lies in one of status [Free].  A schedule
    with at least one item is reported from its items alone, whatever its
    availability view holds. *)
Theorem scheduleLines_free_messages
    (tz : Z) (schedule : ScheduleInfo) (dayStart workStart workEnd : Z) :
  (scheduleLines tz schedule dayStart workStart workEnd = [freeAllDayLine]
   <->
   (scheduleItems schedule = None \/ scheduleItems schedule = Some []) /\
   (forall view, availabilityView schedule = Some view ->
      forall c, In c (list_ascii_of_string view) -> c = "0"%char)) /\
  (scheduleLines tz schedule dayStart workStart workEnd
   = [freeWorkingHoursLine]
   <->
   exists first others,
     scheduleItems schedule = Some (first :: others) /\
     forall t,
       windowStart tz dayStart workStart <= t < windowEnd tz dayStart workEnd ->
       freeAt (first :: others) t) /\
  (forall first others view,
     scheduleItems schedule = Some (first :: others) ->
     scheduleLines tz schedule dayStart workStart workEnd
     = scheduleLines tz
         (mkSchedule (scheduleId schedule) (scheduleItems schedule) view)
         dayStart workStart workEnd).
Proof.
  assert (Hview : forall view : option string,
    (viewLines tz view dayStart = [freeAllDayLine]
     <-> (forall v, view = Some v ->
            forall c, In c (list_ascii_of_string v) -> c = "0"%char)) /\
    viewLines tz view dayStart <> [freeWorkingHoursLine]).
  { intros [v|]; unfold viewLines; simpl.
    - destruct (String.eqb_spec v EmptyString) as [->|Hne].
      + split; [|discriminate]. split; [|reflexivity].
        intros _ v E c Hc. injection E as <-. destruct Hc.
      + destruct (parseAvailabilityView v dayStart 30) as [|b r] eqn:E.
        * split; [|discriminate]. split; [|reflexivity].
          intros _ v' E' c Hc. injection E' as <-.
          apply (proj1 (parseAvailabilityView_nil_iff v dayStart 30) E c Hc).
        * assert (Hb : blk_status b <> "Free"%string).
          { apply (parseAvailabilityView_not_free v dayStart 30).
            rewrite E. left. reflexivity. }
          destruct (blockLine_not_free tz b Hb) as [Hb1 Hb2].
          split; [split|].
          -- intros H. cbn [map] in H. apply singleton_head in H.
             destruct (Hb1 H).
          -- intros H. specialize (H v eq_refl).
             apply (parseAvailabilityView_nil_iff v dayStart 30) in H.
             congruence.
          -- cbn [map]. intros H. apply singleton_head in H. destruct (Hb2 H).
    - split; [|discriminate]. split; [|reflexivity].
      intros _ v E. discriminate. }
  unfold scheduleLines.
  destruct (scheduleItems schedule) as [[|first others]|] eqn:Ei.
  - destruct (Hview (availabilityView schedule)) as [H1 H2].
    split; [|split].
    + split; [intros H; split; [right; reflexivity | exact (proj1 H1 H)]
             | intros [_ H]; exact (proj2 H1 H)].
    + split; [intros H; destruct (H2 H)|].
      intros [f [o [E _]]]. discriminate.
    + intros f o view E. discriminate.
  - set (busy := findBusyFromFreeSlots tz (first :: others) dayStart
                                       workStart workEnd).
    assert (Hst : forall b, In b busy -> status b = "Busy"%string)
      by (intros b; apply findBusyFromFreeSlots_status).
    pose proof (findBusyFromFreeSlots_nil_iff tz (first :: others) dayStart
                  workStart workEnd) as Hnil.
    fold busy in Hnil.
    split; [|split].
    + split; [|intros [[E|E] _]; discriminate].
      destruct busy as [|b r]; [discriminate|].
      intros H. cbn [map] in H. apply singleton_head in H.
      destruct (busyLine_not_free b (Hst b (or_introl eq_refl))) as [Hb _].
      destruct (Hb H).
    + split.
      * intros H. exists first, others. split; [reflexivity|].
        apply Hnil. destruct busy as [|b r]; [reflexivity|].
        cbn [map] in H. apply singleton_head in H.
        destruct (busyLine_not_free b (Hst b (or_introl eq_refl))) as [_ Hb].
        destruct (Hb H).
      * intros [f [o [E Hall]]]. injection E as <- <-.
        apply Hnil in Hall. rewrite Hall. reflexivity.
    + intros f o view E. reflexivity.
  - destruct (Hview (availabilityView schedule)) as [H1 H2].
    split; [|split].
    + split; [intros H; split; [left; reflexivity | exact (proj1 H1 H)]
             | intros [_ H]; exact (proj2 H1 H)].
    + split; [intros H; destruct (H2 H)|].
      intros [f [o [E _]]]. discriminate.
    + intros f o view E. discriminate.
Qed.

Lemma scheduleLines_free_messages_witness :
  scheduleLines 0 (mkSchedule "someone@example.org" None (Some "0000"%string))
                jan1 9 17
  = [freeAllDayLine].
Proof.
  apply (proj1 (scheduleLines_free_messages 0
                  (mkSchedule "someone@example.org" None
                              (Some "0000"%string))
                  jan1 9 17)).
  split; [left; reflexivity|].
  intros view E c Hc. injection E as <-.
  simpl in Hc. destruct Hc as [<-|[<-|[<-|[<-|[]]]]]; reflexivity.
Defined.
